(** * CookieReaderExtension: the popup's cookie logic and the background holder

    A shallow embedding of [src/popup.js], of its class-based variant
    (the file with [UIManager], [ChromeAPIService] and [CookieManager]) and of
    [src/background.js].

    JavaScript data is carried as follows.
    - a string is a [string]; [split] and [join] work on its characters;
    - an object is the list of its own properties in insertion order
      (property names of cookies are never array indices, so insertion order
      is enumeration order);
    - a [Set] and a [Map] are lists in insertion order, without repeated
      elements (keys);
    - an [async] function is a computation over the state of the browser that
      either returns or throws; the message of the thrown error is kept. *)

From Stdlib Require Import String Ascii List Bool Arith Lia.
From Stdlib Require Import DecimalString.
Import ListNotations.
Open Scope string_scope.
Open Scope list_scope.

Set Warnings "-register-all".

(** ** JavaScript values *)

Module Js.

(** The values that cross the message port and the clipboard: JSON data
    and [undefined].  A number is a natural number here; the cookie code
    never computes with one. *)
Inductive Value : Type :=
| Undefined
| Null
| Bool (b : bool)
| Number (n : nat)
| Str (s : string)
| Object (props : list (string * Value))
| Array (items : list Value).

(** An object, as the list of its own properties. *)
Definition Obj : Type := list (string * Value).

(** [o.k]: the first property named [k], [undefined] when there is none. *)
Fixpoint get (k : string) (o : Obj) : Value :=
  match o with
  | [] => Undefined
  | (k', v) :: o' => if String.eqb k k' then v else get k o'
  end.

(** [k in o] for own properties. *)
Definition has (k : string) (o : Obj) : bool :=
  existsb (fun p => String.eqb k (fst p)) o.

(** [o[k] = v]: an existing property keeps its place, a new one goes last. *)
Fixpoint set (k : string) (v : Value) (o : Obj) : Obj :=
  match o with
  | [] => [(k, v)]
  | (k', v') :: o' =>
      if String.eqb k k' then (k', v) :: o' else (k', v') :: set k v o'
  end.

(** The rest of a destructuring pattern [{ a, b, ...rest } = o]: the
    properties of [o] not named in the pattern, in order. *)
Definition rest (named : list string) (o : Obj) : Obj :=
  filter (fun p => negb (existsb (String.eqb (fst p)) named)) o.

(** [Object.fromEntries]: the entries are assigned in order. *)
Definition fromEntries (entries : list (string * Value)) : Obj :=
  fold_left (fun o p => set (fst p) (snd p) o) entries [].

(** [ToBoolean]. *)
Definition truthy (v : Value) : bool :=
  match v with
  | Undefined | Null => false
  | Bool b => b
  | Number n => negb (Nat.eqb n 0)
  | Str s => negb (String.eqb s "")
  | Object _ | Array _ => true
  end.

(** [Array.prototype.join]. *)
Fixpoint join (sep : string) (parts : list string) : string :=
  match parts with
  | [] => ""
  | [p] => p
  | p :: ps => (p ++ sep ++ join sep ps)%string
  end.

(** [ToString], as a template literal applies it.  An object without a
    [toString] of its own prints as [[object Object]]; an array joins its
    items with commas, [null] and [undefined] items printing empty. *)
Fixpoint to_string (v : Value) : string :=
  match v with
  | Undefined => "undefined"
  | Null => "null"
  | Bool true => "true"
  | Bool false => "false"
  | Number n => NilZero.string_of_uint (Nat.to_uint n)
  | Str s => s
  | Object _ => "[object Object]"
  | Array items =>
      join ","
        (map (fun item =>
                match item with
                | Undefined | Null => ""
                | _ => to_string item
                end) items)
  end.

(** Strict equality [===] on values that are not objects; two objects are
    never equal here, as each literal is a fresh object. *)
Definition strict_equals (a b : Value) : bool :=
  match a, b with
  | Undefined, Undefined => true
  | Null, Null => true
  | Bool x, Bool y => Bool.eqb x y
  | Number x, Number y => Nat.eqb x y
  | Str x, Str y => String.eqb x y
  | _, _ => false
  end.

(** Optional chaining [v?.k]: [undefined] on [undefined] and [null], the
    property on an object, and [undefined] on the other values, which have
    no property of the names used here ([status], [value]). *)
Definition opt_chain (v : Value) (k : string) : Value :=
  match v with
  | Object props => get k props
  | _ => Undefined
  end.

(** [String.prototype.split] on a one-character separator. *)
Fixpoint split (sep : ascii) (s : string) : list string :=
  match s with
  | EmptyString => [""]
  | String c rest =>
      if Ascii.eqb c sep then "" :: split sep rest
      else match split sep rest with
           | [] => [String c ""]
           | p :: ps => String c p :: ps
           end
  end.

(** [Array.prototype.slice(start)], also for a negative [start], which
    counts from the end. *)
Definition slice_from {A} (start : nat) (l : list A) : list A := skipn start l.
Definition slice_last {A} (n : nat) (l : list A) : list A :=
  skipn (length l - n) l.

(** [Set.prototype.add]: insertion order, no repeats. *)
Definition set_add (x : string) (s : list string) : list string :=
  if existsb (String.eqb x) s then s else s ++ [x].

(** [Map.prototype.set]: an existing key keeps its place and takes the new
    value, a new key goes last. *)
Fixpoint map_set {V} (k : string) (v : V) (m : list (string * V))
  : list (string * V) :=
  match m with
  | [] => [(k, v)]
  | (k', v') :: m' =>
      if String.eqb k k' then (k', v) :: m' else (k', v') :: map_set k v m'
  end.

(** [Array.from(m.values())]. *)
Definition map_values {V} (m : list (string * V)) : list V := map snd m.

End Js.

(** ** Cookie processing *)

(** The two fields of a [URL] the code reads. *)
Record URL : Type := mkURL { hostname : string; origin : string }.

(** A cookie of [chrome.cookies], an object. *)
Definition Cookie : Type := Js.Obj.

(** [getSubdomains], the same in [CookieProcessor] and [CookieManager]. *)
Definition getSubdomains (url : URL) : list string :=
  let parts := Js.split "." (hostname url) in
  let subdomains :=
    fold_left
      (fun subdomains i =>
         let subdomain := Js.join "." (Js.slice_from i parts) in
         Js.set_add ("." ++ subdomain)%string (Js.set_add subdomain subdomains))
      (seq 0 (length parts - 1)) [] in
  if Nat.ltb 1 (length parts) then
    let mainDomain := Js.join "." (Js.slice_last 2 parts) in
    Js.set_add ("." ++ mainDomain)%string (Js.set_add mainDomain subdomains)
  else subdomains.


(** [cleanCookie], the same in both classes.  Spreading [cleanedCookie]
    into the fresh literal copies its properties in order; [url] is then
    assigned. *)
Definition cleanCookie (cookie : Cookie) (url : URL) : Cookie :=
  let cleanedCookie :=
    Js.rest ["storeId"; "hostOnly"; "expirationDate"; "session"] cookie in
  Js.set "url" (Js.Str (origin url)) cleanedCookie.

(** The key of the two [Map]s: the template [`${cookie.name}_${cookie.domain}`]. *)
Definition cookieKey (cookie : Cookie) : string :=
  (Js.to_string (Js.get "name" cookie) ++ "_"
   ++ Js.to_string (Js.get "domain" cookie))%string.

(** The [forEach] that fills a [Map] keyed by [cookieKey]. *)
Definition collect (cookies : list Cookie) (cookieMap : list (string * Cookie))
  : list (string * Cookie) :=
  fold_left (fun m cookie => Js.map_set (cookieKey cookie) cookie m)
            cookies cookieMap.

(** [CookieManager.mergeAndDedupeCookies]. *)
Definition mergeAndDedupeCookies (existingCookies newCookies : list Cookie)
  : list Cookie :=
  let cookieMap := collect (existingCookies ++ newCookies) [] in
  Js.map_values cookieMap.

(** [CookieManager.camelToSnake]; the property names are ASCII. *)
Definition is_upper (c : ascii) : bool :=
  (Nat.leb 65 (nat_of_ascii c) && Nat.leb (nat_of_ascii c) 90)%bool.

Definition to_lower (c : ascii) : ascii :=
  if is_upper c then ascii_of_nat (nat_of_ascii c + 32) else c.

Fixpoint underscore_upper (key : string) : string :=
  match key with
  | EmptyString => EmptyString
  | String c rest =>
      if is_upper c then String "_" (String c (underscore_upper rest))
      else String c (underscore_upper rest)
  end.

Definition strip_underscore (key : string) : string :=
  match key with
  | String "_" rest => rest
  | _ => key
  end.

Fixpoint toLowerCase (key : string) : string :=
  match key with
  | EmptyString => EmptyString
  | String c rest => String (to_lower c) (toLowerCase rest)
  end.

Definition snakeKey (key : string) : string :=
  toLowerCase (strip_underscore (underscore_upper key)).

Fixpoint camelToSnake (obj : Js.Value) : Js.Value :=
  match obj with
  | Js.Array items => Js.Array (map camelToSnake items)
  | Js.Object props =>
      Js.Object
        (Js.fromEntries
           (map (fun '(key, value) => (snakeKey key, camelToSnake value))
                props))
  | _ => obj
  end.

(** ** The holder ([background.js]) *)

(** A request.  [value] is the payload of a [setCookiesHeap] request; a
    request sent without one carries the empty payload, which no other
    request reads. *)
Record Message : Type := mkMessage { type : string; value : list Cookie }.

(** What the listener passes to [sendResponse]. *)
Inductive Response : Type :=
| ValueResponse (value : list Cookie)     (* { value: cookiesHeap } *)
| StatusResponse (status : string).       (* { status: "success" } *)

(** The listener of [chrome.runtime.onMessage]: the new [cookiesHeap] and
    the response, if [sendResponse] is called. *)
Definition onMessage (message : Message) (cookiesHeap : list Cookie)
  : list Cookie * option Response :=
  if String.eqb (type message) "getCookiesHeap" then
    (cookiesHeap, Some (ValueResponse cookiesHeap))
  else if String.eqb (type message) "setCookiesHeap" then
    (value message, Some (StatusResponse "success"))
  else (cookiesHeap, None).

(** A response, as the JavaScript value the popup receives. *)
Definition heapValue (cookies : list Cookie) : Js.Value :=
  Js.Array (map Js.Object cookies).

Definition responseValue (response : Response) : Js.Value :=
  match response with
  | ValueResponse value => Js.Object [("value", heapValue value)]
  | StatusResponse status => Js.Object [("status", Js.Str status)]
  end.

(** [response.value] of a response that has one. *)
Definition response_value (response : Response) : list Cookie :=
  match response with
  | ValueResponse value => value
  | StatusResponse _ => []
  end.

(** ** The browser around the popup *)

(** What the handlers read and write: the holder's variable, the two
    elements of the popup, the clipboard, and two logs kept for the
    statements below (the requests passed to [chrome.runtime.sendMessage]
    and the counts passed to [createCookieAnimation]). *)
Record Browser : Type := mkBrowser {
  cookiesHeap : list Cookie;      (* background.js: let cookiesHeap *)
  statusHTML : string;            (* #status innerHTML *)
  errorHTML : string;             (* #error innerHTML *)
  clipboard : option string;      (* the text last written *)
  sent : list Message;
  animated : list nat
}.

(** The holder has just started and the popup shows nothing yet. *)
Definition initialBrowser : Browser := mkBrowser [] "" "" None [] [].

(** Either a value or the message of the error thrown. *)
Inductive Result (A : Type) : Type :=
| Ok (a : A)
| Throw (message : string).
Arguments Ok {A} a.
Arguments Throw {A} message.

(** What the browser answers during one click.
    - [activeTab]: [chrome.tabs.query] followed by [new URL(tab.url)];
    - [cookieStore domain]: [chrome.cookies.getAll({ domain })];
    - [schedule]: the order in which the pending cookie queries complete
      (a permutation of them in a run; nothing below depends on that);
    - [lastError message]: [chrome.runtime.lastError] after the request, when
      the holder could not be reached;
    - [writeText text]: the error of [navigator.clipboard.writeText], if any;
    - [stringify]: [JSON.stringify]. *)
Record Env : Type := mkEnv {
  activeTab : Result URL;
  cookieStore : string -> Result (list Cookie);
  schedule : list string -> list string;
  lastError : Message -> option string;
  writeText : string -> option string;
  stringify : Js.Value -> string
}.

(** Computations of an [async] function. *)
Definition Async (A : Type) : Type := Browser -> Result A * Browser.

Definition ret {A} (a : A) : Async A := fun b => (Ok a, b).

Definition throw {A} (message : string) : Async A := fun b => (Throw message, b).

Definition bind {A B} (m : Async A) (k : A -> Async B) : Async B :=
  fun b =>
    match m b with
    | (Ok a, b') => k a b'
    | (Throw message, b') => (Throw message, b')
    end.

(** [try { body } catch (error) { handler(error.message) }]. *)
Definition try_catch {A} (body : Async A) (handler : string -> Async A)
  : Async A :=
  fun b =>
    match body b with
    | (Ok a, b') => (Ok a, b')
    | (Throw message, b') => handler message b'
    end.

(** A promise that is already settled. *)
Definition settled {A} (r : Result A) : Async A := fun b => (r, b).

Declare Scope async_scope.
Delimit Scope async_scope with async.
Notation "x <- m ;; k" := (bind m (fun x => k))
  (at level 61, m at next level, right associativity) : async_scope.
Notation "m ;; k" := (bind m (fun _ => k))
  (at level 61, right associativity) : async_scope.
Open Scope async_scope.

(** The branch a handler took, returned for the statements below; the
    JavaScript handlers return [undefined] on each. *)
Inductive Branch : Type :=
| Stored (count : nat)        (* new cookies written back *)
| NothingNew                  (* nothing to write *)
| Copied                      (* clipboard written, heap cleared *)
| EmptyHeap                   (* nothing to copy *)
| Caught (message : string).  (* the [catch] block ran *)

(** An action fails when it ends on an error message. *)
Definition failed (branch : Branch) : bool :=
  match branch with
  | EmptyHeap | Caught _ => true
  | Stored _ | NothingNew | Copied => false
  end.

(** *** The popup's elements *)

Definition updateStatus (status : string) : Async unit :=
  fun b => (Ok tt, mkBrowser (cookiesHeap b) status (errorHTML b)
                             (clipboard b) (sent b) (animated b)).

Definition updateError (error : string) : Async unit :=
  fun b => (Ok tt, mkBrowser (cookiesHeap b) (statusHTML b) error
                             (clipboard b) (sent b) (animated b)).

Definition clearError : Async unit :=
  fun b => (Ok tt, mkBrowser (cookiesHeap b) (statusHTML b) ""
                             (clipboard b) (sent b) (animated b)).

(** The falling cookies are not modelled beyond the count asked for. *)
Definition createCookieAnimation (count : nat) : Async unit :=
  fun b => (Ok tt, mkBrowser (cookiesHeap b) (statusHTML b) (errorHTML b)
                             (clipboard b) (sent b) (animated b ++ [count])).

(** [navigator.clipboard.writeText]. *)
Definition clipboard_writeText (env : Env) (text : string) : Async unit :=
  fun b =>
    match writeText env text with
    | Some message => (Throw message, b)
    | None => (Ok tt, mkBrowser (cookiesHeap b) (statusHTML b) (errorHTML b)
                                (Some text) (sent b) (animated b))
    end.

(** *** The message port *)

Definition PORT_CLOSED : string :=
  "The message port closed before a response was received.".

(** [sendMessage], the same promise in both variants: rejected with
    [chrome.runtime.lastError] when it is set, resolved with the response
    otherwise.  (The class-based variant calls [resolve] after [reject],
    which a settled promise ignores.)  A request that reaches the holder
    runs the listener; when the listener does not answer, the browser sets
    [lastError]. *)
Definition sendMessage (env : Env) (message : Message) : Async Response :=
  fun b =>
    let b := mkBrowser (cookiesHeap b) (statusHTML b) (errorHTML b)
                       (clipboard b) (sent b ++ [message]) (animated b) in
    match lastError env message with
    | Some error => (Throw error, b)
    | None =>
        let (heap, response) := onMessage message (cookiesHeap b) in
        let b := mkBrowser heap (statusHTML b) (errorHTML b)
                           (clipboard b) (sent b) (animated b) in
        match response with
        | Some response => (Ok response, b)
        | None => (Throw PORT_CLOSED, b)
        end
    end.

Definition NO_RESPONSE : string := "No response or value undefined".
Definition UPDATE_FAILED : string := "Failed to update global variable".

(** [getCookiesHeap], the same in both variants. *)
Definition getCookiesHeap (env : Env) : Async (list Cookie) :=
  response <- sendMessage env (mkMessage "getCookiesHeap" []) ;;
  if negb (Js.truthy (Js.opt_chain (responseValue response) "value")) then
    throw NO_RESPONSE
  else ret (response_value response).

(** The guard of [setCookiesHeap], [!response?.status === "success"]: the
    negation binds tighter than the comparison. *)
Definition update_failed (response : Js.Value) : bool :=
  Js.strict_equals
    (Js.Bool (negb (Js.truthy (Js.opt_chain response "status"))))
    (Js.Str "success").

(** [setCookiesHeap] after the response has arrived; [result] is what the
    variant returns (a sentence in [popup.js], [true] in the class). *)
Definition setCookiesHeap_resolved {A} (result : A) (response : Js.Value)
  : Async A :=
  if update_failed response then throw UPDATE_FAILED else ret result.

Definition setCookiesHeap {A} (result : A) (env : Env) (value : list Cookie)
  : Async A :=
  response <- sendMessage env (mkMessage "setCookiesHeap" value) ;;
  setCookiesHeap_resolved result (responseValue response).

(** [getAllCookies], the same in both variants: the queries of all domains
    are started, and each fills [cookieMap] when it completes; the first
    query that rejects rejects [Promise.all]. *)
Fixpoint gather (env : Env) (url : URL) (completed : list string)
  (cookieMap : list (string * Cookie)) : Result (list (string * Cookie)) :=
  match completed with
  | [] => Ok cookieMap
  | domain :: completed' =>
      match cookieStore env domain with
      | Throw message => Throw message
      | Ok cookies =>
          gather env url completed'
            (fold_left
               (fun m cookie =>
                  Js.map_set (cookieKey cookie) (cleanCookie cookie url) m)
               cookies cookieMap)
      end
  end.

Definition getAllCookies (env : Env) (url : URL) : Async (list Cookie) :=
  let domains := getSubdomains url in
  match gather env url (schedule env domains) [] with
  | Ok cookieMap => ret (Js.map_values cookieMap)
  | Throw message => throw message
  end.

(** *** The texts shown *)

Definition count_text (count : nat) : string :=
  NilZero.string_of_uint (Nat.to_uint count).

Definition COPY_SUCCESS : string := "Cookie успешно скопирован в буфер обмена!".
Definition EMPTY_HEAP : string := "Ошибка при копировании: CookiesHeap is Empty".
Definition COOKIES_COUNT (count : nat) : string :=
  ("Собрано <b>" ++ count_text count ++ "</b> cookies")%string.
Definition GET_ERROR (message : string) : string :=
  ("Ошибка: " ++ message)%string.
Definition COPY_ERROR (message : string) : string :=
  ("Ошибка при копировании: " ++ message)%string.

Definition INIT_ERROR (message : string) : string :=
  ("Ошибка инициализации: " ++ message)%string.

(** [initialize], the same in both variants: the popup shows the count of
    the heap when it opens. *)
Definition initialize (env : Env) : Async unit :=
  try_catch
    (cookiesHeap <- getCookiesHeap env ;;
     updateStatus (COOKIES_COUNT (length cookiesHeap)))
    (fun message => updateError (INIT_ERROR message)).

(** ** The handlers of the class-based variant ([CookieManager]) *)

Module Manager.

Definition handleGetCookies (env : Env) : Async Branch :=
  try_catch
    (url <- settled (activeTab env) ;;
     cookies <- getAllCookies env url ;;
     cookiesHeap <- getCookiesHeap env ;;
     let updatedHeap := mergeAndDedupeCookies cookiesHeap cookies in
     if Nat.ltb (length cookiesHeap) (length updatedHeap) then
       setCookiesHeap true env updatedHeap ;;
       clearError ;;
       updateStatus (COOKIES_COUNT (length updatedHeap)) ;;
       createCookieAnimation (length updatedHeap) ;;
       ret (Stored (length updatedHeap))
     else ret NothingNew)
    (fun message => updateError (GET_ERROR message) ;; ret (Caught message)).

Definition handleCopyToClipboard (env : Env) : Async Branch :=
  try_catch
    (cookiesHeap <- getCookiesHeap env ;;
     if Nat.eqb (length cookiesHeap) 0 then
       updateError EMPTY_HEAP ;; ret EmptyHeap
     else
       let snakeCookiesHeap := camelToSnake (heapValue cookiesHeap) in
       clipboard_writeText env (stringify env snakeCookiesHeap) ;;
       clearError ;;
       updateStatus COPY_SUCCESS ;;
       setCookiesHeap true env [] ;;
       ret Copied)
    (fun message => updateError (COPY_ERROR message) ;; ret (Caught message)).

End Manager.

(** ** The handlers of [popup.js] *)

Module Popup.

Definition SET_OK : string := "Global variable updated successfully".

(** The response's array is the popup's own copy, so [push] does not touch
    the holder. *)
Definition handleGetCookies (env : Env) : Async Branch :=
  try_catch
    (url <- settled (activeTab env) ;;
     cookies <- getAllCookies env url ;;
     cookiesHeap <- getCookiesHeap env ;;
     let lengthBeforeUpdate := length cookiesHeap in
     let cookiesHeap := cookiesHeap ++ cookies in
     let updatedHeapMap := collect cookiesHeap [] in
     let updatedHeap := Js.map_values updatedHeapMap in
     if Nat.eqb (length updatedHeap) lengthBeforeUpdate then ret NothingNew
     else
       setCookiesHeap SET_OK env updatedHeap ;;
       clearError ;;
       updateStatus (COOKIES_COUNT (length updatedHeap)) ;;
       createCookieAnimation (length updatedHeap) ;;
       ret (Stored (length updatedHeap)))
    (fun message => updateError (GET_ERROR message) ;; ret (Caught message)).

Definition handleCopyToClipboard (env : Env) : Async Branch :=
  try_catch
    (cookiesHeap <- getCookiesHeap env ;;
     if Nat.eqb (length cookiesHeap) 0 then
       updateError EMPTY_HEAP ;; ret EmptyHeap
     else
       clipboard_writeText env (stringify env (heapValue cookiesHeap)) ;;
       clearError ;;
       updateStatus COPY_SUCCESS ;;
       setCookiesHeap SET_OK env [] ;;
       ret Copied)
    (fun message => updateError (COPY_ERROR message) ;; ret (Caught message)).

End Popup.

(** ** Sessions: the clicks of a user *)

Inductive Edition : Type := ClassBased | PopupJs.

Inductive Action : Type := GetCookies | CopyToClipboard.

Definition handle (edition : Edition) (action : Action) (env : Env)
  : Async Branch :=
  match edition, action with
  | ClassBased, GetCookies => Manager.handleGetCookies env
  | ClassBased, CopyToClipboard => Manager.handleCopyToClipboard env
  | PopupJs, GetCookies => Popup.handleGetCookies env
  | PopupJs, CopyToClipboard => Popup.handleCopyToClipboard env
  end.

(** The browser after a sequence of clicks, each with its own answers. *)
Fixpoint session (edition : Edition) (clicks : list (Action * Env))
  (b : Browser) : Browser :=
  match clicks with
  | [] => b
  | (action, env) :: clicks' =>
      session edition clicks' (snd (handle edition action env b))
  end.

(** The popup, once opened on a holder that has just started. *)
Definition opened (env : Env) : Browser := snd (initialize env initialBrowser).

(** No two records with the same key. *)
Definition deduped (cookies : list Cookie) : Prop :=
  NoDup (map cookieKey cookies).

(** ** The statements of the specification *)

(** A domain variant of a list of labels: the labels joined by dots, bare
    or with a leading dot. *)
Definition variant_of (labels : list string) (s : string) : Prop :=
  s = Js.join "." labels \/ s = ("." ++ Js.join "." labels)%string.

(** The variants the specification lists for a host of [k] labels: those of
    the suffix at every label position, and those of the last two labels
    when [k > 1]. *)
Definition every_suffix_variant (url : URL) (s : string) : Prop :=
  let labels := Js.split "." (hostname url) in
  (exists i, i < length labels /\ variant_of (skipn i labels) s)
  \/ (1 < length labels /\ variant_of (skipn (length labels - 2) labels) s).

(** The variants of the suffixes of two labels or more. *)
Definition long_suffix_variant (url : URL) (s : string) : Prop :=
  let labels := Js.split "." (hostname url) in
  (exists i, i + 1 < length labels /\ variant_of (skipn i labels) s)
  \/ (1 < length labels /\ variant_of (skipn (length labels - 2) labels) s).

(** The keys of a sequence, each once, in the order of first appearance. *)
Definition distinct (keys : list string) : list string :=
  fold_left (fun seen k => Js.set_add k seen) keys [].

(** The last record of a sequence that has the key [k]. *)
Fixpoint lastWithKey (k : string) (cookies : list Cookie) : option Cookie :=
  match cookies with
  | [] => None
  | cookie :: cookies' =>
      match lastWithKey k cookies' with
      | Some later => Some later
      | None => if String.eqb (cookieKey cookie) k then Some cookie else None
      end
  end.

(** The mapping of the specification, written from its words: a left fold
    of the sequence into a mapping keyed by identity key, where a later
    record overwrites an earlier one.  The mapping is the list of its keys
    in the order they were first bound, each with the record bound last. *)
Definition entry (cookies : list Cookie) (k : string)
  : list (string * Cookie) :=
  match lastWithKey k cookies with
  | Some cookie => [(k, cookie)]
  | None => []
  end.

Definition foldIntoMapping (cookies : list Cookie) : list (string * Cookie) :=
  flat_map (entry cookies) (distinct (map cookieKey cookies)).

(** [mergeAndDedupe] as the specification words it. *)
Definition mergeAndDedupe (existing incoming : list Cookie) : list Cookie :=
  map snd (foldIntoMapping (existing ++ incoming)).

(** The cookies a get-cookies action collects, when it collects any. *)
Definition collected (env : Env) : Result (list Cookie) :=
  match activeTab env with
  | Throw message => Throw message
  | Ok url =>
      match gather env url (schedule env (getSubdomains url)) [] with
      | Ok cookieMap => Ok (Js.map_values cookieMap)
      | Throw message => Throw message
      end
  end.

(** The requests of a log that ask the holder to replace its heap. *)
Definition writes (log : list Message) : list Message :=
  filter (fun m => String.eqb (type m) "setCookiesHeap") log.

(** ** Sample data *)

Definition stripped : list string :=
  ["storeId"; "hostOnly"; "expirationDate"; "session"].

Definition cookie_a : Cookie := [("name", Js.Str "a"); ("domain", Js.Str "d")].

Definition cookie_a_new : Cookie :=
  [("name", Js.Str "a"); ("domain", Js.Str "d"); ("value", Js.Str "new")].

Definition cookie_b : Cookie := [("name", Js.Str "b"); ("domain", Js.Str "d")].

Definition cookie_x : Cookie :=
  [("name", Js.Str "x"); ("domain", Js.Str "d"); ("storeId", Js.Str "0");
   ("hostOnly", Js.Bool true); ("value", Js.Str "v")].

Definition example_com : URL := mkURL "example.com" "https://example.com".

(** The text an export writes to the clipboard. *)
Definition clipboard_text (edition : Edition) (env : Env)
  (cookies : list Cookie) : string :=
  match edition with
  | ClassBased => stringify env (camelToSnake (heapValue cookies))
  | PopupJs => stringify env (heapValue cookies)
  end.

Definition GET_REQUEST : Message := mkMessage "getCookiesHeap" [].
Definition CLEAR_REQUEST : Message := mkMessage "setCookiesHeap" [].

(** A browser where everything answers: the page is [example.com], and the
    cookie store holds [cookie_x] for that domain. *)
Definition env_online : Env :=
  mkEnv (Ok example_com)
        (fun domain =>
           if String.eqb domain "example.com" then Ok [cookie_x] else Ok [])
        (fun domains => domains)
        (fun _ => None)
        (fun _ => None)
        (fun _ => "[...]").

(** The same browser with an empty cookie store. *)
Definition env_quiet : Env :=
  mkEnv (Ok example_com) (fun _ => Ok []) (fun domains => domains)
        (fun _ => None) (fun _ => None) (fun _ => "[...]").

(** The active tab has no URL that parses. *)
Definition env_no_tab : Env :=
  mkEnv (Throw "Invalid URL") (fun _ => Ok []) (fun domains => domains)
        (fun _ => None) (fun _ => None) (fun _ => "[...]").

(** The holder is reached by reads and not by writes. *)
Definition env_port_lost : Env :=
  mkEnv (Ok example_com) (fun _ => Ok []) (fun domains => domains)
        (fun message =>
           if String.eqb (type message) "setCookiesHeap"
           then Some "Could not establish connection. Receiving end does not exist."
           else None)
        (fun _ => None) (fun _ => "[...]").

(** The clipboard refuses the text. *)
Definition env_clipboard_denied : Env :=
  mkEnv (Ok example_com) (fun _ => Ok []) (fun domains => domains)
        (fun _ => None) (fun _ => Some "Document is not focused.")
        (fun _ => "[...]").

(** The browser after one get-cookies on [example.com]. *)
Definition browser_with_cookie (edition : Edition) : Browser :=
  snd (handle edition GetCookies env_online (opened env_online)).

(** ** Further notions *)

Definition deep_host : URL := mkURL "a.b.example.com" "https://a.b.example.com".

Definition localhost : URL := mkURL "localhost" "http://localhost".

(** The number of occurrences of a character in a string. *)
Fixpoint count_char (c : ascii) (s : string) : nat :=
  match s with
  | EmptyString => 0
  | String c' rest =>
      if Ascii.eqb c' c then S (count_char c rest) else count_char c rest
  end.

(** The labels of a host name, and the suffix that starts at a label. *)
Definition labels (url : URL) : list string := Js.split "." (hostname url).

Definition suffix (url : URL) (i : nat) : string :=
  Js.join "." (skipn i (labels url)).

(** The body of the loop of [getSubdomains]. *)
Definition add_variants (parts : list string) (subdomains : list string)
  (i : nat) : list string :=
  let subdomain := Js.join "." (Js.slice_from i parts) in
  Js.set_add ("." ++ subdomain)%string (Js.set_add subdomain subdomains).

(** The record [r] is the cleaning of a cookie the store returned for one
    of the [domains]. *)
Definition from_store (env : Env) (url : URL) (domains : list string)
  (r : Cookie) : Prop :=
  exists domain cookies raw,
    In domain domains /\ cookieStore env domain = Ok cookies
    /\ In raw cookies /\ r = cleanCookie raw url.

(** A [cookieMap] of [getAllCookies]: no key twice, every record filed
    under its own key and cleaned from the store. *)
Definition filed (env : Env) (url : URL) (domains : list string)
  (cookieMap : list (string * Cookie)) : Prop :=
  NoDup (map fst cookieMap)
  /\ forall k r, In (k, r) cookieMap ->
                k = cookieKey r /\ from_store env url domains r.

(** The test a get-cookies makes before it writes: the class compares
    with [>], [popup.js] returns early on [===]. *)
Definition grows (edition : Edition) (before after : nat) : bool :=
  match edition with
  | ClassBased => Nat.ltb before after
  | PopupJs => negb (Nat.eqb after before)
  end.

(** The holder's heap after a get-cookies, as a function of the heap
    before. *)
Definition heap_after_get (edition : Edition) (env : Env)
  (heap : list Cookie) : list Cookie :=
  match collected env with
  | Throw _ => heap
  | Ok cookies =>
      match lastError env GET_REQUEST with
      | Some _ => heap
      | None =>
          let merged := mergeAndDedupeCookies heap cookies in
          if grows edition (length heap) (length merged) then
            match lastError env (mkMessage "setCookiesHeap" merged) with
            | Some _ => heap
            | None => merged
            end
          else heap
      end
  end.

(** [cookie_x] with another value, and a browser whose store holds it. *)
Definition cookie_x_changed : Cookie :=
  [("name", Js.Str "x"); ("domain", Js.Str "d"); ("storeId", Js.Str "0");
   ("hostOnly", Js.Bool true); ("value", Js.Str "w")].

Definition env_changed : Env :=
  mkEnv (Ok example_com)
        (fun domain =>
           if String.eqb domain "example.com" then Ok [cookie_x_changed]
           else Ok [])
        (fun domains => domains)
        (fun _ => None)
        (fun _ => None)
        (fun _ => "[...]").

(** A cookie with the given name and domain. *)
Definition named_cookie (name domain : string) : Cookie :=
  [("name", Js.Str name); ("domain", Js.Str domain)].

(** A browser on [localhost]; the store would have a cookie for any
    domain asked. *)
Definition env_localhost : Env :=
  mkEnv (Ok localhost) (fun _ => Ok [cookie_x]) (fun domains => domains)
        (fun _ => None) (fun _ => None) (fun _ => "[...]").



(** An object: no property name twice. *)
Definition well_formed (o : Js.Obj) : Prop := NoDup (map fst o).

(** ** Domain variants *)

Section SetAdd.

Lemma existsb_eqb_In (x : string) (s : list string) :
  existsb (String.eqb x) s = true <-> In x s.
Proof.
  rewrite existsb_exists. split.
  - intros [y [Hy Heq]]. apply String.eqb_eq in Heq. now subst.
  - intros H. exists x. split; [assumption | apply String.eqb_refl].
Qed.

Lemma set_add_In (x y : string) (s : list string) :
  In y (Js.set_add x s) <-> y = x \/ In y s.
Proof.
  unfold Js.set_add. destruct (existsb (String.eqb x) s) eqn:E.
  - apply existsb_eqb_In in E. split; [tauto | intros [-> | H]; assumption].
  - rewrite in_app_iff. simpl. intuition congruence.
Qed.

Lemma set_add_NoDup (x : string) (s : list string) :
  NoDup s -> NoDup (Js.set_add x s).
Proof.
  intros H. unfold Js.set_add. destruct (existsb (String.eqb x) s) eqn:E.
  - assumption.
  - assert (~ In x s) as Hx.
    { intros Hin. apply existsb_eqb_In in Hin. congruence. }
    clear E. induction H as [|a s Ha Hs IH]; simpl.
    + constructor; [intros [] | constructor].
    + constructor.
      * rewrite in_app_iff. simpl. intros [H1 | [H1 | []]].
        -- contradiction.
        -- apply Hx. left. congruence.
      * apply IH. intros H1. apply Hx. now right.
Qed.

End SetAdd.

(** The loop of [getSubdomains] over the positions [js], from the set [acc]. *)
Lemma subdomain_loop_In (parts : list string) (js : list nat) :
  forall (acc : list string) (s : string),
    In s (fold_left
            (fun subdomains i =>
               let subdomain := Js.join "." (Js.slice_from i parts) in
               Js.set_add ("." ++ subdomain)%string
                          (Js.set_add subdomain subdomains)) js acc)
    <-> In s acc \/ exists i, In i js /\ variant_of (skipn i parts) s.
Proof.
  induction js as [|j js IH]; intros acc s; simpl.
  - split; [tauto | intros [H | [i [[] _]]]; assumption].
  - rewrite IH. rewrite !set_add_In. unfold variant_of, Js.slice_from. split.
    + intros [[H | [H | H]] | [i [Hi Hv]]].
      * right. exists j. split; [now left | now right].
      * right. exists j. split; [now left | now left].
      * now left.
      * right. exists i. split; [now right | assumption].
    + intros [H | [i [[<- | Hi] Hv]]].
      * left. right. now right.
      * left. destruct Hv as [Hv | Hv]; [right; now left | now left].
      * right. exists i. split; assumption.
Qed.

Lemma subdomain_loop_NoDup (parts : list string) (js : list nat) :
  forall acc : list string,
    NoDup acc ->
    NoDup (fold_left
             (fun subdomains i =>
                let subdomain := Js.join "." (Js.slice_from i parts) in
                Js.set_add ("." ++ subdomain)%string
                           (Js.set_add subdomain subdomains)) js acc).
Proof.
  induction js as [|j js IH]; intros acc H; simpl.
  - assumption.
  - apply IH. now do 2 apply set_add_NoDup.
Qed.

(** C1 (as amended). For every hostname with [k] dot-separated labels,
    [getSubdomains] returns, without duplicates, exactly the bare and
    leading-dot forms of every suffix [labels[i:]] that has at least two
    labels ([i + 1 < k]), plus the bare and leading-dot form of the last two
    labels when [k > 1]; the last label alone is not a variant. *)
Theorem getSubdomains_long_suffixes (url : URL) :
  NoDup (getSubdomains url)
  /\ forall s : string, In s (getSubdomains url) <-> long_suffix_variant url s.
Proof.
  unfold getSubdomains, long_suffix_variant.
  set (parts := Js.split "." (hostname url)).
  split.
  - destruct (Nat.ltb 1 (length parts)).
    + do 2 apply set_add_NoDup. apply subdomain_loop_NoDup. constructor.
    + apply subdomain_loop_NoDup. constructor.
  - intros s.
    assert (forall i, In i (seq 0 (length parts - 1)) <-> i + 1 < length parts)
      as Hseq by (intros i; rewrite in_seq; lia).
    destruct (Nat.ltb 1 (length parts)) eqn:E.
    + apply Nat.ltb_lt in E.
      rewrite !set_add_In, subdomain_loop_In.
      unfold Js.slice_last, variant_of. simpl. split.
      * intros [H | [H | [[] | [i [Hi Hv]]]]].
        -- right. split; [assumption | now right].
        -- right. split; [assumption | now left].
        -- left. exists i. split; [now apply Hseq | assumption].
      * intros [[i [Hi Hv]] | [_ [Hv | Hv]]].
        -- right. right. right. exists i. split; [now apply Hseq | assumption].
        -- right. now left.
        -- now left.
    + apply Nat.ltb_ge in E.
      rewrite subdomain_loop_In. simpl. split.
      * intros [[] | [i [Hi Hv]]].
        left. exists i. split; [now apply Hseq | assumption].
      * intros [[i [Hi Hv]] | [Hk _]]; [| lia].
        right. exists i. split; [now apply Hseq | assumption].
Qed.

(** C1, as stated, fails on a host of two labels: the suffix at the last
    position, the top-level label alone, is listed by the specification and
    is not returned. *)
Lemma getSubdomains_omits_last_label :
  every_suffix_variant (mkURL "example.com" "https://example.com") "com"
  /\ ~ In "com" (getSubdomains (mkURL "example.com" "https://example.com"))
  /\ ~ (forall s,
          In s (getSubdomains (mkURL "example.com" "https://example.com"))
          <-> every_suffix_variant
                (mkURL "example.com" "https://example.com") s).
Proof.
  assert (every_suffix_variant
            (mkURL "example.com" "https://example.com") "com") as Hv.
  { left. exists 1. split; [simpl; lia | left; reflexivity]. }
  assert (~ In "com"
            (getSubdomains (mkURL "example.com" "https://example.com")))
    as Hn.
  { vm_compute. intros [H | [H | []]]; discriminate H. }
  split; [exact Hv | split; [exact Hn |]].
  intros H. apply Hn. apply H. exact Hv.
Qed.

(** ** Merging *)

Section Mapping.

Lemma map_set_fresh {V} (k : string) (v : V) (m : list (string * V)) :
  ~ In k (map fst m) -> Js.map_set k v m = m ++ [(k, v)].
Proof.
  induction m as [|[k' v'] m IH]; simpl; intros H.
  - reflexivity.
  - destruct (String.eqb k k') eqn:E.
    + apply String.eqb_eq in E. exfalso. apply H. left. now symmetry.
    + f_equal. apply IH. intros Hin. apply H. now right.
Qed.

Lemma collect_snoc (p : list Cookie) (c : Cookie) (m : list (string * Cookie)) :
  collect (p ++ [c]) m = Js.map_set (cookieKey c) c (collect p m).
Proof. unfold collect. now rewrite fold_left_app. Qed.

Lemma distinct_snoc (l : list string) (k : string) :
  distinct (l ++ [k]) = Js.set_add k (distinct l).
Proof. unfold distinct. now rewrite fold_left_app. Qed.

Lemma distinct_In (l : list string) (k : string) :
  In k (distinct l) <-> In k l.
Proof.
  induction l as [|a l IH] using rev_ind.
  - reflexivity.
  - rewrite distinct_snoc, set_add_In, in_app_iff, IH. simpl.
    intuition congruence.
Qed.

Lemma distinct_NoDup (l : list string) : NoDup (distinct l).
Proof.
  induction l as [|a l IH] using rev_ind.
  - constructor.
  - rewrite distinct_snoc. now apply set_add_NoDup.
Qed.

Lemma distinct_of_NoDup (l : list string) : NoDup l -> distinct l = l.
Proof.
  induction l as [|a l IH] using rev_ind; intros H.
  - reflexivity.
  - rewrite distinct_snoc.
    apply NoDup_remove in H. rewrite app_nil_r in H. destruct H as [Hl Ha].
    rewrite IH by assumption. unfold Js.set_add.
    destruct (existsb (String.eqb a) l) eqn:E; [| reflexivity].
    apply existsb_eqb_In in E. contradiction.
Qed.

Lemma lastWithKey_snoc (k : string) (p : list Cookie) (c : Cookie) :
  lastWithKey k (p ++ [c]) =
  if String.eqb (cookieKey c) k then Some c else lastWithKey k p.
Proof.
  induction p as [|a p IH]; simpl.
  - reflexivity.
  - rewrite IH. destruct (String.eqb (cookieKey c) k); reflexivity.
Qed.

Lemma lastWithKey_Some (k : string) (p : list Cookie) (c : Cookie) :
  lastWithKey k p = Some c -> In c p /\ cookieKey c = k.
Proof.
  induction p as [|a p IH]; simpl; [discriminate |].
  destruct (lastWithKey k p) as [later|].
  - intros [= <-]. destruct (IH eq_refl) as [H1 H2]. split; [now right | assumption].
  - destruct (String.eqb (cookieKey a) k) eqn:E; [| discriminate].
    intros [= <-]. apply String.eqb_eq in E. split; [now left | assumption].
Qed.

Lemma lastWithKey_present (k : string) (p : list Cookie) :
  In k (map cookieKey p) -> exists c, lastWithKey k p = Some c.
Proof.
  induction p as [|a p IH]; simpl; [intros [] |].
  intros [H | H].
  - destruct (lastWithKey k p) as [later|]; [now exists later |].
    exists a. subst k. now rewrite String.eqb_refl.
  - destruct (IH H) as [c Hc]. exists c. now rewrite Hc.
Qed.

Lemma entry_snoc_other (p : list Cookie) (c : Cookie) (k : string) :
  k <> cookieKey c -> entry (p ++ [c]) k = entry p k.
Proof.
  intros H. unfold entry. rewrite lastWithKey_snoc.
  destruct (String.eqb (cookieKey c) k) eqn:E; [| reflexivity].
  apply String.eqb_eq in E. congruence.
Qed.

Lemma entry_snoc_same (p : list Cookie) (c : Cookie) :
  entry (p ++ [c]) (cookieKey c) = [(cookieKey c, c)].
Proof. unfold entry. rewrite lastWithKey_snoc. now rewrite String.eqb_refl. Qed.

Lemma entries_snoc_others (p : list Cookie) (c : Cookie) (D : list string) :
  ~ In (cookieKey c) D ->
  flat_map (entry (p ++ [c])) D = flat_map (entry p) D.
Proof.
  induction D as [|a D IH]; simpl; intros H; [reflexivity |].
  rewrite entry_snoc_other, IH; [reflexivity | |]; intuition congruence.
Qed.

Lemma entries_keys (p : list Cookie) (D : list string) (k : string) :
  In k (map fst (flat_map (entry p) D)) -> In k D.
Proof.
  induction D as [|a D IH]; simpl; [tauto |].
  rewrite map_app, in_app_iff. intros [H | H]; [| right; now apply IH].
  left. unfold entry in H. destruct (lastWithKey a p); simpl in H; tauto.
Qed.

Lemma entries_overwrite (p : list Cookie) (c : Cookie) (D : list string) :
  NoDup D ->
  (forall k, In k D -> In k (map cookieKey p)) ->
  In (cookieKey c) D ->
  flat_map (entry (p ++ [c])) D =
  Js.map_set (cookieKey c) c (flat_map (entry p) D).
Proof.
  induction D as [|a D IH]; simpl; intros Hnd Hp Hin; [contradiction |].
  inversion Hnd as [|? ? Ha HD]; subst.
  destruct (lastWithKey_present a p (Hp a (or_introl eq_refl))) as [c' Hc'].
  destruct (String.eqb (cookieKey c) a) eqn:E.
  - apply String.eqb_eq in E. subst a.
    rewrite entry_snoc_same, entries_snoc_others by assumption.
    unfold entry at 2. rewrite Hc'. simpl. now rewrite String.eqb_refl.
  - assert (a <> cookieKey c) as Hne.
    { intros ->. now rewrite String.eqb_refl in E. }
    rewrite entry_snoc_other by assumption.
    unfold entry at 1 3. rewrite Hc'. simpl. rewrite E. f_equal.
    apply IH; [assumption | intros k Hk; apply Hp; now right |].
    destruct Hin as [Hin | Hin]; [congruence | assumption].
Qed.

Lemma foldIntoMapping_snoc (p : list Cookie) (c : Cookie) :
  foldIntoMapping (p ++ [c]) = Js.map_set (cookieKey c) c (foldIntoMapping p).
Proof.
  unfold foldIntoMapping.
  rewrite map_app. simpl. rewrite distinct_snoc. unfold Js.set_add.
  destruct (existsb (String.eqb (cookieKey c)) (distinct (map cookieKey p)))
    eqn:E.
  - apply existsb_eqb_In in E. apply entries_overwrite.
    + apply distinct_NoDup.
    + intros k. apply distinct_In.
    + assumption.
  - assert (~ In (cookieKey c) (distinct (map cookieKey p))) as Hn.
    { intros H. apply existsb_eqb_In in H. congruence. }
    rewrite flat_map_app. simpl. rewrite entry_snoc_same, app_nil_r.
    rewrite entries_snoc_others by assumption.
    symmetry. apply map_set_fresh. intros H. apply Hn.
    now apply entries_keys in H.
Qed.

(** The [Map] the code fills is the mapping of the specification. *)
Lemma collect_foldIntoMapping (p : list Cookie) :
  collect p [] = foldIntoMapping p.
Proof.
  induction p as [|c p IH] using rev_ind.
  - reflexivity.
  - now rewrite collect_snoc, foldIntoMapping_snoc, IH.
Qed.

Lemma foldIntoMapping_keys (p : list Cookie) :
  map cookieKey (map snd (foldIntoMapping p)) = distinct (map cookieKey p).
Proof.
  unfold foldIntoMapping.
  assert (forall D, (forall k, In k D -> In k (map cookieKey p)) ->
                    map cookieKey (map snd (flat_map (entry p) D)) = D) as H.
  { induction D as [|a D IH]; simpl; intros HD; [reflexivity |].
    destruct (lastWithKey_present a p (HD a (or_introl eq_refl))) as [c Hc].
    unfold entry at 1. rewrite Hc. simpl.
    apply lastWithKey_Some in Hc. destruct Hc as [_ ->]. f_equal.
    apply IH. intros k Hk. apply HD. now right. }
  apply H. intros k. apply distinct_In.
Qed.

Lemma foldIntoMapping_last (p : list Cookie) (c : Cookie) :
  In c (map snd (foldIntoMapping p)) -> lastWithKey (cookieKey c) p = Some c.
Proof.
  unfold foldIntoMapping.
  induction (distinct (map cookieKey p)) as [|a D IH]; simpl; [tauto |].
  rewrite map_app, in_app_iff. intros [H | H]; [| now apply IH].
  unfold entry in H. destruct (lastWithKey a p) as [c'|] eqn:E; simpl in H;
    [| contradiction].
  destruct H as [<- | []].
  destruct (lastWithKey_Some _ _ _ E) as [_ ->]. assumption.
Qed.

End Mapping.

Lemma merge_keys (existing incoming : list Cookie) :
  map cookieKey (mergeAndDedupeCookies existing incoming)
  = distinct (map cookieKey (existing ++ incoming)).
Proof.
  unfold mergeAndDedupeCookies, Js.map_values.
  rewrite collect_foldIntoMapping. apply foldIntoMapping_keys.
Qed.

Lemma merge_deduped (existing incoming : list Cookie) :
  deduped (mergeAndDedupeCookies existing incoming).
Proof. unfold deduped. rewrite merge_keys. apply distinct_NoDup. Qed.

Lemma distinct_app_known (l m : list string) :
  (forall k, In k m -> In k l) -> distinct (l ++ m) = distinct l.
Proof.
  induction m as [|a m IH] using rev_ind; intros H.
  - now rewrite app_nil_r.
  - rewrite app_assoc, distinct_snoc, IH.
    + unfold Js.set_add.
      destruct (existsb (String.eqb a) (distinct l)) eqn:E; [reflexivity |].
      assert (In a (distinct l)) as Ha.
      { apply distinct_In. apply H. rewrite in_app_iff. right. now left. }
      apply existsb_eqb_In in Ha. congruence.
    + intros k Hk. apply H. rewrite in_app_iff. now left.
Qed.

(** Merging records whose keys are all in the heap keeps its keys, and so
    its length. *)
Lemma merge_known_keys (existing incoming : list Cookie) :
  deduped existing ->
  (forall c, In c incoming -> In (cookieKey c) (map cookieKey existing)) ->
  map cookieKey (mergeAndDedupeCookies existing incoming)
  = map cookieKey existing
  /\ length (mergeAndDedupeCookies existing incoming) = length existing.
Proof.
  intros Hd Hin.
  assert (map cookieKey (mergeAndDedupeCookies existing incoming)
          = map cookieKey existing) as Hk.
  { rewrite merge_keys, map_app, distinct_app_known.
    - now apply distinct_of_NoDup.
    - intros k Hk. apply in_map_iff in Hk. destruct Hk as [c [<- Hc]].
      now apply Hin. }
  split; [exact Hk |].
  rewrite <- (length_map cookieKey), Hk. apply length_map.
Qed.

(** A sequence without repeated keys is its own mapping. *)
Lemma collect_deduped (p : list Cookie) :
  deduped p -> collect p [] = map (fun c => (cookieKey c, c)) p.
Proof.
  unfold deduped. induction p as [|c p IH] using rev_ind; intros H.
  - reflexivity.
  - rewrite map_app in H. simpl in H.
    apply NoDup_remove in H. rewrite app_nil_r in H. destruct H as [Hp Hc].
    rewrite collect_snoc, IH by assumption.
    rewrite map_set_fresh, map_app; [reflexivity |].
    now rewrite map_map.
Qed.

(** C2. [mergeAndDedupeCookies] is the merge of the specification:
    concatenate [existing] then [incoming], fold left into a mapping keyed
    by [name + "_" + domain] where a later record overwrites an earlier one,
    and return the values of the mapping; merging [{name:"a",domain:"d"}]
    with [{name:"a",domain:"d",value:"new"}] yields the one record with
    value ["new"]. *)
Theorem mergeAndDedupeCookies_last_wins :
  (forall existing incoming : list Cookie,
      mergeAndDedupeCookies existing incoming = mergeAndDedupe existing incoming)
  /\ (forall cookiesHeap cookies : list Cookie,
        Js.map_values (collect (cookiesHeap ++ cookies) [])
        = mergeAndDedupe cookiesHeap cookies)
  /\ mergeAndDedupeCookies [cookie_a] [cookie_a_new] = [cookie_a_new]
  /\ Js.get "value" cookie_a_new = Js.Str "new".
Proof.
  assert (forall existing incoming : list Cookie,
             mergeAndDedupeCookies existing incoming
             = mergeAndDedupe existing incoming) as H.
  { intros existing incoming.
    unfold mergeAndDedupeCookies, mergeAndDedupe, Js.map_values.
    now rewrite collect_foldIntoMapping. }
  split; [exact H | split; [exact H | split; reflexivity]].
Qed.

(** C9. Right identity: [mergeAndDedupeCookies X []] has the identity keys
    of [X], each with a record of [X] (the last one with that key), and is
    [X] itself when no two records of [X] share a key. *)
Theorem mergeAndDedupeCookies_right_identity (X : list Cookie) :
  (forall k : string,
      In k (map cookieKey (mergeAndDedupeCookies X []))
      <-> In k (map cookieKey X))
  /\ (forall c : Cookie,
        In c (mergeAndDedupeCookies X []) ->
        lastWithKey (cookieKey c) X = Some c /\ In c X)
  /\ (deduped X -> mergeAndDedupeCookies X [] = X).
Proof.
  split; [| split].
  - intros k. rewrite merge_keys, app_nil_r. apply distinct_In.
  - intros c H. unfold mergeAndDedupeCookies, Js.map_values in H.
    rewrite app_nil_r, collect_foldIntoMapping in H.
    apply foldIntoMapping_last in H. split; [assumption |].
    now apply lastWithKey_Some in H.
  - intros H. unfold mergeAndDedupeCookies, Js.map_values.
    rewrite app_nil_r, collect_deduped by assumption.
    rewrite map_map. simpl. apply map_id.
Qed.

Lemma mergeAndDedupeCookies_right_identity_witness :
  deduped [cookie_a; cookie_b]
  /\ mergeAndDedupeCookies [cookie_a; cookie_b] [] = [cookie_a; cookie_b].
Proof.
  assert (deduped [cookie_a; cookie_b]) as H.
  { unfold deduped. vm_compute.
    constructor; [intros [E | []]; discriminate E |].
    constructor; [intros [] | constructor]. }
  split; [exact H |].
  exact (proj2 (proj2 (mergeAndDedupeCookies_right_identity
                         [cookie_a; cookie_b])) H).
Defined.

(** ** Cleaning *)

Lemma get_set (k k' : string) (v : Js.Value) (o : Js.Obj) :
  Js.get k (Js.set k' v o) = if String.eqb k k' then v else Js.get k o.
Proof.
  induction o as [|[k0 v0] o IH]; simpl.
  - destruct (String.eqb k k'); reflexivity.
  - destruct (String.eqb k' k0) eqn:E; simpl.
    + apply String.eqb_eq in E. subst k0.
      destruct (String.eqb k k'); reflexivity.
    + rewrite IH. destruct (String.eqb k k0) eqn:E0; [| reflexivity].
      apply String.eqb_eq in E0. subst k0.
      rewrite String.eqb_sym in E. now rewrite E.
Qed.

Lemma has_set (k k' : string) (v : Js.Value) (o : Js.Obj) :
  Js.has k (Js.set k' v o) = (String.eqb k k' || Js.has k o)%bool.
Proof.
  unfold Js.has. induction o as [|[k0 v0] o IH]; simpl.
  - now rewrite orb_false_r.
  - destruct (String.eqb k' k0) eqn:E; simpl.
    + apply String.eqb_eq in E. subst k0.
      destruct (String.eqb k k'); reflexivity.
    + rewrite IH. destruct (String.eqb k k0), (String.eqb k k'); reflexivity.
Qed.

Lemma named_sym (k k0 : string) (named : list string) :
  String.eqb k k0 = true ->
  existsb (String.eqb k0) named = existsb (String.eqb k) named.
Proof. intros E. apply String.eqb_eq in E. now subst. Qed.

Lemma get_rest (k : string) (named : list string) (o : Js.Obj) :
  Js.get k (Js.rest named o) =
  if existsb (String.eqb k) named then Js.Undefined else Js.get k o.
Proof.
  unfold Js.rest. induction o as [|[k0 v0] o IH]; simpl.
  - destruct (existsb (String.eqb k) named); reflexivity.
  - destruct (String.eqb k k0) eqn:E.
    + rewrite (named_sym k k0 named E).
      destruct (existsb (String.eqb k) named) eqn:En; simpl.
      * exact IH.
      * now rewrite E.
    + destruct (existsb (String.eqb k0) named); simpl;
        [| rewrite E]; apply IH.
Qed.

Lemma has_rest (k : string) (named : list string) (o : Js.Obj) :
  Js.has k (Js.rest named o) =
  (negb (existsb (String.eqb k) named) && Js.has k o)%bool.
Proof.
  unfold Js.rest, Js.has. induction o as [|[k0 v0] o IH]; simpl.
  - now rewrite andb_false_r.
  - destruct (String.eqb k k0) eqn:E.
    + rewrite (named_sym k k0 named E).
      destruct (existsb (String.eqb k) named) eqn:En; simpl.
      * exact IH.
      * rewrite E. now rewrite orb_true_l.
    + destruct (existsb (String.eqb k0) named); simpl;
        [| rewrite E]; apply IH.
Qed.

(** C5. [cleanCookie cookie url] has every field of [cookie] except
    [storeId], [hostOnly], [expirationDate] and [session], each with the
    value it had, and the field [url] with the origin of the page; the
    record of the specification's example is cleaned as it says. *)
Theorem cleanCookie_fields (cookie : Cookie) (url : URL) :
  (forall k : string,
      Js.get k (cleanCookie cookie url) =
      if String.eqb k "url" then Js.Str (origin url)
      else if existsb (String.eqb k) stripped then Js.Undefined
           else Js.get k cookie)
  /\ (forall k : string,
        Js.has k (cleanCookie cookie url) =
        (String.eqb k "url"
         || negb (existsb (String.eqb k) stripped) && Js.has k cookie)%bool)
  /\ cleanCookie cookie_x example_com =
     [("name", Js.Str "x"); ("domain", Js.Str "d"); ("value", Js.Str "v");
      ("url", Js.Str "https://example.com")].
Proof.
  split; [| split].
  - intros k. unfold cleanCookie. rewrite get_set, get_rest. reflexivity.
  - intros k. unfold cleanCookie. rewrite has_set, has_rest. reflexivity.
  - reflexivity.
Qed.

(** ** The handlers *)

Arguments mergeAndDedupeCookies : simpl never.
Arguments collect : simpl never.
Arguments Js.map_values : simpl never.
Arguments camelToSnake : simpl never.
Arguments gather : simpl never.
Arguments getSubdomains : simpl never.
Arguments Nat.ltb : simpl never.
Arguments Nat.eqb : simpl never.

Ltac unfold_handlers :=
  unfold handle, Manager.handleGetCookies, Manager.handleCopyToClipboard,
    Popup.handleGetCookies, Popup.handleCopyToClipboard,
    try_catch, bind, settled, ret, throw, getAllCookies, getCookiesHeap,
    setCookiesHeap, setCookiesHeap_resolved, sendMessage, clearError,
    updateStatus, updateError, createCookieAnimation, clipboard_writeText.

Ltac split_cases :=
  repeat match goal with
         | |- context [match ?x with _ => _ end] =>
             lazymatch x with
             | context [match _ with _ => _ end] => fail
             | _ => destruct x eqn:?; cbn
             end
         end.

Ltac run_handler := unfold_handlers; cbn; split_cases.

Lemma deduped_nil : deduped [].
Proof. constructor. Qed.

Lemma collect_values_deduped (cookies : list Cookie) :
  deduped (Js.map_values (collect cookies [])).
Proof.
  rewrite <- (app_nil_r cookies). apply (merge_deduped cookies []).
Qed.

Lemma merge_length_ge (existing incoming : list Cookie) :
  deduped existing ->
  length existing <= length (mergeAndDedupeCookies existing incoming).
Proof.
  intros H.
  rewrite <- (length_map cookieKey existing).
  rewrite <- (length_map cookieKey (mergeAndDedupeCookies existing incoming)).
  rewrite merge_keys. apply NoDup_incl_length; [exact H |].
  intros k Hk. apply distinct_In. rewrite map_app, in_app_iff. now left.
Qed.

Ltac solve_delta :=
  first
    [ exists []; split; [now rewrite app_nil_r | constructor]
    | eexists; split;
      [ rewrite <- ?app_assoc; reflexivity
      | repeat constructor; cbn;
        first [ apply deduped_nil | apply collect_values_deduped
              | apply merge_deduped ] ] ].

(** One click: the heap is left as it was or ends without repeated keys,
    and every request sent carries a sequence without repeated keys. *)
Lemma handle_writes_deduped (edition : Edition) (action : Action)
  (env : Env) (b : Browser) :
  (cookiesHeap (snd (handle edition action env b)) = cookiesHeap b
   \/ deduped (cookiesHeap (snd (handle edition action env b))))
  /\ exists delta,
      sent (snd (handle edition action env b)) = sent b ++ delta
      /\ Forall (fun m => deduped (value m)) delta.
Proof.
  destruct edition, action; run_handler;
    (split;
     [ first [ left; reflexivity
             | right; first [ apply deduped_nil | apply collect_values_deduped
                            | apply merge_deduped ] ]
     | solve_delta ]).
Qed.

Lemma session_deduped (edition : Edition) (clicks : list (Action * Env)) :
  forall b : Browser,
    deduped (cookiesHeap b) ->
    deduped (cookiesHeap (session edition clicks b)).
Proof.
  induction clicks as [|[action env] clicks IH]; intros b H; simpl.
  - assumption.
  - apply IH.
    destruct (handle_writes_deduped edition action env b) as [[E | E] _].
    + now rewrite E.
    + assumption.
Qed.

Lemma initialize_reads (env : Env) (b : Browser) :
  cookiesHeap (snd (initialize env b)) = cookiesHeap b.
Proof. unfold initialize. run_handler; reflexivity. Qed.

(** C3. After every operation that writes the heap (the write-back of a
    get-cookies and the clear of an export, in either variant) the heap has
    no two records with the same identity key: one click leaves the heap
    untouched or without repeated keys, every request it sends carries a
    sequence without repeated keys, and so the heap has none after any
    session of a popup opened on a fresh holder. *)
Theorem cookiesHeap_deduped :
  (forall (edition : Edition) (action : Action) (env : Env) (b : Browser),
      (cookiesHeap (snd (handle edition action env b)) = cookiesHeap b
       \/ deduped (cookiesHeap (snd (handle edition action env b))))
      /\ exists delta,
          sent (snd (handle edition action env b)) = sent b ++ delta
          /\ Forall (fun m => deduped (value m)) delta)
  /\ (forall (edition : Edition) (env : Env) (clicks : list (Action * Env)),
        deduped (cookiesHeap (session edition clicks (opened env)))).
Proof.
  split.
  - apply handle_writes_deduped.
  - intros edition env clicks. apply session_deduped.
    unfold opened. rewrite initialize_reads. apply deduped_nil.
Qed.

(** ** Export *)

Lemma writes_app (log more : list Message) :
  writes (log ++ more) = writes log ++ writes more.
Proof. apply filter_app. Qed.

(** C4 (as amended). For every export started on a heap that is not empty:
    if the clipboard write succeeds and the request to clear reaches the
    holder, the heap is replaced by the empty sequence; if the clipboard
    write fails, no request to clear is sent and the heap is unchanged. *)
Theorem export_clears_when_delivered (edition : Edition) (env : Env)
  (b : Browser) :
  cookiesHeap b <> [] ->
  lastError env GET_REQUEST = None ->
  (writeText env (clipboard_text edition env (cookiesHeap b)) = None ->
   lastError env CLEAR_REQUEST = None ->
   fst (handle edition CopyToClipboard env b) = Ok Copied
   /\ cookiesHeap (snd (handle edition CopyToClipboard env b)) = []
   /\ clipboard (snd (handle edition CopyToClipboard env b))
      = Some (clipboard_text edition env (cookiesHeap b)))
  /\ (forall message,
        writeText env (clipboard_text edition env (cookiesHeap b))
        = Some message ->
        fst (handle edition CopyToClipboard env b) = Ok (Caught message)
        /\ cookiesHeap (snd (handle edition CopyToClipboard env b))
           = cookiesHeap b
        /\ writes (sent (snd (handle edition CopyToClipboard env b)))
           = writes (sent b)).
Proof.
  intros Hne Hget. unfold GET_REQUEST, CLEAR_REQUEST, clipboard_text in *.
  assert (Nat.eqb (length (cookiesHeap b)) 0 = false) as Hlen.
  { apply Nat.eqb_neq. destruct (cookiesHeap b); [congruence | discriminate]. }
  split.
  - intros Hw Hclear.
    destruct edition; unfold_handlers; cbn;
      rewrite Hget; cbn; rewrite Hlen; cbn; rewrite Hw; cbn;
      rewrite Hclear; cbn; repeat split.
  - intros message Hw.
    destruct edition; unfold_handlers; cbn;
      rewrite Hget; cbn; rewrite Hlen; cbn; rewrite Hw; cbn;
      (repeat split; rewrite writes_app; cbn; apply app_nil_r).
Qed.

Lemma export_clears_when_delivered_witness :
  cookiesHeap (browser_with_cookie ClassBased) <> []
  /\ cookiesHeap
       (snd (handle ClassBased CopyToClipboard env_online
                    (browser_with_cookie ClassBased))) = []
  /\ cookiesHeap
       (snd (handle ClassBased CopyToClipboard env_clipboard_denied
                    (browser_with_cookie ClassBased)))
     = cookiesHeap (browser_with_cookie ClassBased).
Proof.
  assert (cookiesHeap (browser_with_cookie ClassBased) <> []) as Hne.
  { vm_compute. discriminate. }
  split; [exact Hne | split].
  - exact (proj1 (proj2 (proj1
             (export_clears_when_delivered ClassBased env_online
                (browser_with_cookie ClassBased) Hne eq_refl)
             eq_refl eq_refl))).
  - exact (proj1 (proj2 (proj2
             (export_clears_when_delivered ClassBased env_clipboard_denied
                (browser_with_cookie ClassBased) Hne eq_refl)
             "Document is not focused." eq_refl))).
Defined.

(** C4, as stated, fails when the port is lost between the read and the
    clear: the clipboard write succeeds, the request to clear is rejected
    with [chrome.runtime.lastError], and the heap keeps its record. *)
Lemma export_keeps_heap_when_port_lost :
  cookiesHeap (browser_with_cookie ClassBased) <> []
  /\ writeText env_port_lost
       (clipboard_text ClassBased env_port_lost
          (cookiesHeap (browser_with_cookie ClassBased))) = None
  /\ clipboard
       (snd (handle ClassBased CopyToClipboard env_port_lost
                    (browser_with_cookie ClassBased)))
     = Some (clipboard_text ClassBased env_port_lost
               (cookiesHeap (browser_with_cookie ClassBased)))
  /\ cookiesHeap
       (snd (handle ClassBased CopyToClipboard env_port_lost
                    (browser_with_cookie ClassBased)))
     = cookiesHeap (browser_with_cookie ClassBased)
  /\ cookiesHeap
       (snd (handle ClassBased CopyToClipboard env_port_lost
                    (browser_with_cookie ClassBased))) <> [].
Proof.
  repeat split; try reflexivity; vm_compute; discriminate.
Qed.

(** ** Collecting nothing new *)

(** C6. A get-cookies action whose merge does not make the heap longer
    sends no request to replace the heap and leaves the holder's heap as it
    was.  ([popup.js] compares the lengths for equality, so there the heap
    is taken without repeated keys, as every heap the popup wrote is.) *)
Theorem no_write_without_new_cookies (edition : Edition) (env : Env)
  (b : Browser) (cookies : list Cookie) :
  (edition = PopupJs -> deduped (cookiesHeap b)) ->
  collected env = Ok cookies ->
  length (mergeAndDedupeCookies (cookiesHeap b) cookies)
  <= length (cookiesHeap b) ->
  cookiesHeap (snd (handle edition GetCookies env b)) = cookiesHeap b
  /\ writes (sent (snd (handle edition GetCookies env b))) = writes (sent b)
  /\ (lastError env GET_REQUEST = None ->
      fst (handle edition GetCookies env b) = Ok NothingNew).
Proof.
  intros Hd Hc Hlen. unfold collected in Hc. unfold GET_REQUEST.
  destruct (activeTab env) as [url|] eqn:Etab; [| discriminate].
  destruct (gather env url (schedule env (getSubdomains url)) [])
    as [cookieMap|] eqn:Eg; [| discriminate].
  injection Hc as <-.
  destruct edition.
  - unfold_handlers. rewrite Etab. cbn. rewrite Eg. cbn.
    destruct (lastError env (mkMessage "getCookiesHeap" [])); cbn.
    + repeat split; [rewrite writes_app; apply app_nil_r | discriminate].
    + match goal with
      | |- context [Nat.ltb ?n ?m] => destruct (Nat.ltb n m) eqn:E
      end.
      * apply Nat.ltb_lt in E. lia.
      * cbn. repeat split. rewrite writes_app. apply app_nil_r.
  - specialize (Hd eq_refl).
    unfold_handlers. rewrite Etab. cbn. rewrite Eg. cbn.
    destruct (lastError env (mkMessage "getCookiesHeap" [])); cbn.
    + repeat split; [rewrite writes_app; apply app_nil_r | discriminate].
    + match goal with
      | |- context [Nat.eqb ?n ?m] => destruct (Nat.eqb n m) eqn:E
      end.
      * cbn. repeat split. rewrite writes_app. apply app_nil_r.
      * apply Nat.eqb_neq in E. exfalso. apply E.
        pose proof (merge_length_ge (cookiesHeap b)
                      (Js.map_values cookieMap) Hd) as Hge.
        apply Nat.le_antisymm; assumption.
Qed.

Lemma no_write_without_new_cookies_witness :
  cookiesHeap
    (snd (handle PopupJs GetCookies env_online (browser_with_cookie PopupJs)))
  = cookiesHeap (browser_with_cookie PopupJs)
  /\ writes
       (sent (snd (handle PopupJs GetCookies env_online
                          (browser_with_cookie PopupJs))))
     = writes (sent (browser_with_cookie PopupJs)).
Proof.
  assert (deduped (cookiesHeap (browser_with_cookie PopupJs))) as Hd.
  { unfold deduped. vm_compute. constructor; [intros [] | constructor]. }
  assert (length
            (mergeAndDedupeCookies (cookiesHeap (browser_with_cookie PopupJs))
               [cleanCookie cookie_x example_com])
          <= length (cookiesHeap (browser_with_cookie PopupJs))) as Hlen.
  { vm_compute. lia. }
  destruct (no_write_without_new_cookies PopupJs env_online
              (browser_with_cookie PopupJs)
              [cleanCookie cookie_x example_com]
              (fun _ => Hd) eq_refl Hlen) as [H1 [H2 _]].
  split; assumption.
Defined.

(** ** The holder's protocol *)

(** C7. The holder answers exactly two kinds of request: a
    [getCookiesHeap] request is answered with [{ value: cookiesHeap }] and
    leaves the heap as it was; a [setCookiesHeap] request with value [v]
    replaces the heap by [v] and is answered with [{ status: "success" }];
    a request of any other type gets no response (and changes nothing). *)
Theorem onMessage_protocol (heap : list Cookie) :
  (forall payload,
      onMessage (mkMessage "getCookiesHeap" payload) heap
      = (heap, Some (ValueResponse heap)))
  /\ (forall v,
        onMessage (mkMessage "setCookiesHeap" v) heap
        = (v, Some (StatusResponse "success")))
  /\ (forall message,
        type message <> "getCookiesHeap" ->
        type message <> "setCookiesHeap" ->
        onMessage message heap = (heap, None))
  /\ (forall message,
        (exists response, snd (onMessage message heap) = Some response)
        <-> type message = "getCookiesHeap"
            \/ type message = "setCookiesHeap")
  /\ responseValue (ValueResponse heap)
     = Js.Object [("value", Js.Array (map Js.Object heap))]
  /\ responseValue (StatusResponse "success")
     = Js.Object [("status", Js.Str "success")].
Proof.
  split; [reflexivity | split; [reflexivity | split; [| split]]].
  - intros message Hget Hset. unfold onMessage.
    apply String.eqb_neq in Hget, Hset. now rewrite Hget, Hset.
  - intros message. unfold onMessage.
    destruct (String.eqb (type message) "getCookiesHeap") eqn:Eg.
    + apply String.eqb_eq in Eg. split; [now left | intros _; now eexists].
    + destruct (String.eqb (type message) "setCookiesHeap") eqn:Es.
      * apply String.eqb_eq in Es. split; [now right | intros _; now eexists].
      * apply String.eqb_neq in Eg, Es. simpl. split.
        -- intros [response H]. discriminate H.
        -- intros [H | H]; contradiction.
  - split; reflexivity.
Qed.

Lemma onMessage_protocol_witness :
  onMessage (mkMessage "clearCookiesHeap" []) [cookie_a] = ([cookie_a], None).
Proof.
  apply (proj1 (proj2 (proj2 (onMessage_protocol [cookie_a])))).
  - simpl. discriminate.
  - simpl. discriminate.
Defined.

(** ** The guard of [setCookiesHeap] *)

(** C10. The failure branch of [setCookiesHeap] is unreachable: for every
    response value, [undefined] and responses with another status included,
    the guard [!response?.status === "success"] compares a boolean with a
    string and is false; the error [UPDATE_FAILED] is never thrown, every
    response that arrives counts as a success, and [setCookiesHeap] fails
    only with the error of the port. *)
Theorem setCookiesHeap_guard_is_dead :
  (forall response : Js.Value, update_failed response = false)
  /\ (forall (A : Type) (result : A) (response : Js.Value) (b : Browser),
        setCookiesHeap_resolved result response b = (Ok result, b))
  /\ (forall (A : Type) (result : A) (env : Env) (value : list Cookie)
             (b : Browser),
        fst (setCookiesHeap result env value b)
        = match lastError env (mkMessage "setCookiesHeap" value) with
          | Some error => Throw error
          | None => Ok result
          end)
  /\ update_failed Js.Undefined = false
  /\ update_failed (Js.Object [("status", Js.Str "failure")]) = false.
Proof.
  split; [| split; [| split; [| split; reflexivity]]].
  - intros response. reflexivity.
  - intros A result response b. reflexivity.
  - intros A result env value b. unfold_handlers. cbn.
    destruct (lastError env (mkMessage "setCookiesHeap" value)); reflexivity.
Qed.

(** ** The error banner *)

Ltac solve_banner :=
  eexists; split;
  [ reflexivity
  | cbn; first [ reflexivity
               | unfold GET_ERROR, COPY_ERROR, EMPTY_HEAP; cbn; discriminate ] ].

(** C8 (as amended). Every action ends on one of its branches.  The error
    banner is set only when the action fails (the [catch] block ran, or the
    heap to copy was empty), and it is then not empty; it is empty after a
    get-cookies that stored new cookies and after a copy that succeeded; a
    get-cookies that finds nothing new leaves the banner as it was. *)
Theorem error_banner_by_branch (edition : Edition) (action : Action)
  (env : Env) (b : Browser) :
  exists branch : Branch,
    fst (handle edition action env b) = Ok branch
    /\ match branch with
       | Stored _ | Copied =>
           errorHTML (snd (handle edition action env b)) = ""
       | NothingNew =>
           errorHTML (snd (handle edition action env b)) = errorHTML b
       | EmptyHeap | Caught _ =>
           errorHTML (snd (handle edition action env b)) <> ""
       end.
Proof.
  destruct edition, action; run_handler; solve_banner.
Qed.

(** C8, as stated, fails on a get-cookies that finds nothing new after a
    failed one: it completes without an error and the banner of the
    failure is still shown. *)
Lemma error_banner_survives_nothing_new :
  fst (handle ClassBased GetCookies env_no_tab (opened env_quiet))
  = Ok (Caught "Invalid URL")
  /\ fst (handle ClassBased GetCookies env_quiet
            (snd (handle ClassBased GetCookies env_no_tab
                    (opened env_quiet))))
     = Ok NothingNew
  /\ failed NothingNew = false
  /\ errorHTML
       (snd (handle ClassBased GetCookies env_quiet
               (snd (handle ClassBased GetCookies env_no_tab
                       (opened env_quiet)))))
     = GET_ERROR "Invalid URL"
  /\ GET_ERROR "Invalid URL" <> "".
Proof.
  repeat split; try reflexivity. vm_compute. discriminate.
Qed.

(** * Further properties of the code *)

(** ** Splitting and joining the host name *)

Section SplitJoin.

Variable sep : ascii.

Lemma split_cons (s : string) :
  exists p ps, Js.split sep s = p :: ps.
Proof.
  destruct s as [|c rest]; simpl.
  - now exists "", [].
  - destruct (Ascii.eqb c sep).
    + now exists "", (Js.split sep rest).
    + destruct (Js.split sep rest) as [|p ps]; eauto.
Qed.

Lemma join_split (s : string) :
  Js.join (String sep "") (Js.split sep s) = s.
Proof.
  induction s as [|c rest IH]; simpl.
  - reflexivity.
  - destruct (Ascii.eqb c sep) eqn:E.
    + apply Ascii.eqb_eq in E. subst c.
      destruct (split_cons rest) as [p [ps Hp]].
      rewrite Hp in *. simpl. simpl in IH. now rewrite IH.
    + destruct (split_cons rest) as [p [ps Hp]].
      rewrite Hp in *. destruct ps as [|q qs]; simpl in *.
      * now rewrite IH.
      * now rewrite IH.
Qed.

Lemma split_length (s : string) :
  length (Js.split sep s) = S (count_char sep s).
Proof.
  induction s as [|c rest IH]; simpl.
  - reflexivity.
  - destruct (Ascii.eqb c sep); simpl.
    + now rewrite IH.
    + destruct (split_cons rest) as [p [ps Hp]].
      rewrite Hp in *. exact IH.
Qed.

Lemma split_no_sep (s : string) :
  Forall (fun p => count_char sep p = 0) (Js.split sep s).
Proof.
  induction s as [|c rest IH]; simpl.
  - now constructor.
  - destruct (Ascii.eqb c sep) eqn:E.
    + now constructor.
    + destruct (Js.split sep rest) as [|p ps].
      * constructor; [simpl; now rewrite E | constructor].
      * inversion IH; subst. constructor; [simpl; now rewrite E | assumption].
Qed.

End SplitJoin.

Lemma string_length_append (s t : string) :
  String.length (s ++ t) = String.length s + String.length t.
Proof. induction s as [|c s IH]; simpl; [reflexivity | now rewrite IH]. Qed.

Lemma set_add_fresh (x : string) (s : list string) :
  ~ In x s -> Js.set_add x s = s ++ [x].
Proof.
  intros H. unfold Js.set_add.
  destruct (existsb (String.eqb x) s) eqn:E; [| reflexivity].
  apply existsb_eqb_In in E. contradiction.
Qed.

Lemma set_add_known (x : string) (s : list string) :
  In x s -> Js.set_add x s = s.
Proof.
  intros H. unfold Js.set_add. apply existsb_eqb_In in H. now rewrite H.
Qed.

Lemma skipn_step {A} (l : list A) (i : nat) :
  i < length l -> exists p, skipn i l = p :: skipn (S i) l /\ In p l.
Proof.
  revert i. induction l as [|a l IH]; intros i H; simpl in H; [lia |].
  destruct i as [|i].
  - exists a. split; [reflexivity | now left].
  - destruct (IH i) as [p [Hp Hin]]; [lia |].
    exists p. split; [exact Hp | now right].
Qed.

Lemma skipn_nonempty {A} (l : list A) (i : nat) :
  i < length l -> skipn i l <> [].
Proof.
  intros H. destruct (skipn_step l i H) as [p [Hp _]]. rewrite Hp. discriminate.
Qed.

Lemma join_cons2 (p q : string) (qs : list string) :
  Js.join "." (p :: q :: qs) = (p ++ "." ++ Js.join "." (q :: qs))%string.
Proof. reflexivity. Qed.

(** Dropping one more label makes the joined suffix shorter. *)
Lemma join_skipn_step (parts : list string) (i : nat) :
  S i < length parts ->
  String.length (Js.join "." (skipn (S i) parts))
  < String.length (Js.join "." (skipn i parts)).
Proof.
  intros H.
  destruct (skipn_step parts i) as [p [Hp _]]; [lia |].
  rewrite Hp. pose proof (skipn_nonempty parts (S i) H) as Hne.
  destruct (skipn (S i) parts) as [|q qs]; [congruence |].
  rewrite join_cons2, !string_length_append.
  change (String.length ".") with 1. lia.
Qed.

Lemma join_skipn_shorter (parts : list string) (i j : nat) :
  i < j -> j < length parts ->
  String.length (Js.join "." (skipn j parts))
  < String.length (Js.join "." (skipn i parts)).
Proof.
  intros Hij. induction Hij as [|j Hij IH]; intros Hj.
  - now apply join_skipn_step.
  - pose proof (join_skipn_step parts j Hj) as Hs.
    assert (j < length parts) as Hj' by lia.
    specialize (IH Hj'). lia.
Qed.

(** A suffix of labels that are not empty starts with a character of its
    first label, which is not a dot. *)
Lemma join_skipn_head (parts : list string) (i : nat) :
  Forall (fun p => p <> "") parts ->
  Forall (fun p => count_char "." p = 0) parts ->
  i < length parts ->
  exists c t, Js.join "." (skipn i parts) = String c t /\ c <> "."%char.
Proof.
  intros Hne Hnd Hi.
  destruct (skipn_step parts i Hi) as [p [Hp Hin]]. rewrite Hp.
  rewrite Forall_forall in Hne, Hnd.
  pose proof (Hne p Hin) as Hp1. pose proof (Hnd p Hin) as Hp2.
  destruct p as [|c t]; [congruence |].
  assert (c <> "."%char) as Hc.
  { intros ->. simpl in Hp2. discriminate. }
  destruct (skipn (S i) parts) as [|q qs].
  - exists c, t. split; [reflexivity | exact Hc].
  - exists c, (t ++ "." ++ Js.join "." (q :: qs))%string.
    split; [reflexivity | exact Hc].
Qed.

(** ** More on domain variants *)

Lemma set_add_extends (x : string) (s : list string) :
  exists tail, Js.set_add x s = s ++ tail.
Proof.
  unfold Js.set_add. destruct (existsb (String.eqb x) s).
  - exists []. now rewrite app_nil_r.
  - now exists [x].
Qed.

Lemma getSubdomains_loop (url : URL) :
  getSubdomains url
  = if Nat.ltb 1 (length (labels url)) then
      Js.set_add ("." ++ suffix url (length (labels url) - 2))%string
        (Js.set_add (suffix url (length (labels url) - 2))
           (fold_left (add_variants (labels url))
                      (seq 0 (length (labels url) - 1)) []))
    else fold_left (add_variants (labels url))
                   (seq 0 (length (labels url) - 1)) [].
Proof. reflexivity. Qed.

Lemma add_variants_extends (parts : list string) (js : list nat) :
  forall acc : list string,
  exists tail, fold_left (add_variants parts) js acc = acc ++ tail.
Proof.
  induction js as [|j js IH]; intros acc.
  - exists []. simpl. now rewrite app_nil_r.
  - change (fold_left (add_variants parts) (j :: js) acc)
      with (fold_left (add_variants parts) js (add_variants parts acc j)).
    destruct (IH (add_variants parts acc j)) as [t3 E3]. rewrite E3.
    unfold add_variants. cbv zeta.
    destruct (set_add_extends (Js.join "." (Js.slice_from j parts)) acc)
      as [t1 E1].
    rewrite E1.
    destruct (set_add_extends
                ("." ++ Js.join "." (Js.slice_from j parts))%string
                (acc ++ t1)) as [t2 E2].
    rewrite E2.
    exists (t1 ++ t2 ++ t3). now rewrite !app_assoc.
Qed.

Lemma dotted_differs (s : string) : ("." ++ s)%string <> s.
Proof.
  intros H. apply (f_equal String.length) in H. simpl in H. lia.
Qed.

Lemma labels_length (url : URL) :
  length (labels url) = S (count_char "." (hostname url)).
Proof. apply split_length. Qed.

Lemma getSubdomains_head (url : URL) :
  0 < count_char "." (hostname url) ->
  exists rest,
    getSubdomains url
    = hostname url :: ("." ++ hostname url)%string :: rest.
Proof.
  intros H. rewrite getSubdomains_loop.
  pose proof (labels_length url) as Hlen.
  assert (length (labels url) - 1 = S (length (labels url) - 2)) as E by lia.
  rewrite E.
  change (seq 0 (S (length (labels url) - 2)))
    with (0 :: seq 1 (length (labels url) - 2)).
  change (fold_left (add_variants (labels url))
            (0 :: seq 1 (length (labels url) - 2)) [])
    with (fold_left (add_variants (labels url))
            (seq 1 (length (labels url) - 2))
            (add_variants (labels url) [] 0)).
  assert (add_variants (labels url) [] 0
          = [hostname url; ("." ++ hostname url)%string]) as Hstart.
  { unfold add_variants, Js.slice_from, labels. cbv zeta.
    change (skipn 0 (Js.split "." (hostname url)))
      with (Js.split "." (hostname url)).
    rewrite (join_split "." (hostname url)).
    change (Js.set_add (hostname url) []) with [hostname url].
    rewrite set_add_fresh; [reflexivity |].
    intros [Hin | []]. symmetry in Hin. now apply dotted_differs in Hin. }
  rewrite Hstart.
  destruct (add_variants_extends (labels url)
              (seq 1 (length (labels url) - 2))
              [hostname url; ("." ++ hostname url)%string]) as [t1 E1].
  rewrite E1.
  destruct (Nat.ltb 1 (length (labels url))).
  - match goal with
    | |- context [Js.set_add ?y (Js.set_add ?x ?acc)] =>
        destruct (set_add_extends x acc) as [t2 E2]; rewrite E2;
        destruct (set_add_extends y (acc ++ t2)) as [t3 E3]; rewrite E3
    end.
    exists (t1 ++ t2 ++ t3). now rewrite <- !app_assoc.
  - now exists t1.
Qed.

(** X1. A host name with a dot in it is itself the first variant
    [getSubdomains] returns, and its dotted form is the second: splitting
    at the dots and joining again gives the name back. *)
Theorem getSubdomains_starts_with_host (url : URL) :
  0 < count_char "." (hostname url) ->
  Js.join "." (Js.split "." (hostname url)) = hostname url
  /\ exists rest,
      getSubdomains url
      = hostname url :: ("." ++ hostname url)%string :: rest.
Proof.
  intros H. split; [apply join_split | now apply getSubdomains_head].
Qed.

Lemma getSubdomains_starts_with_host_witness :
  exists rest,
    getSubdomains example_com = "example.com" :: ".example.com" :: rest.
Proof.
  apply (getSubdomains_starts_with_host example_com). simpl. lia.
Defined.

(** X2. [getSubdomains] returns no variant at all exactly for the host
    names without a dot ([localhost]): the loop stops one label before the
    end and the main domain needs two labels. *)
Theorem getSubdomains_empty_iff_no_dot (url : URL) :
  getSubdomains url = [] <-> count_char "." (hostname url) = 0.
Proof.
  split.
  - intros H. destruct (count_char "." (hostname url)) eqn:E; [reflexivity |].
    destruct (getSubdomains_head url) as [rest Hr]; [lia |].
    rewrite Hr in H. discriminate.
  - intros H. rewrite getSubdomains_loop, labels_length, H. reflexivity.
Qed.

Section ExactVariants.

Variable parts : list string.
Hypothesis labels_not_empty : Forall (fun p => p <> "") parts.
Hypothesis labels_without_dot : Forall (fun p => count_char "." p = 0) parts.

Let bare (i : nat) : string := Js.join "." (skipn i parts).

Let both (i : nat) : list string := [bare i; ("." ++ bare i)%string].

Lemma bare_not_dotted (i j : nat) :
  i < length parts -> bare i <> ("." ++ bare j)%string.
Proof.
  intros Hi H.
  destruct (join_skipn_head parts i labels_not_empty labels_without_dot Hi)
    as [c [t [E Hc]]].
  unfold bare in H. rewrite E in H. simpl in H. congruence.
Qed.

Lemma bare_injective (i j : nat) :
  i < j -> j < length parts -> bare i <> bare j.
Proof.
  intros Hij Hj H.
  pose proof (join_skipn_shorter parts i j Hij Hj) as Hlt.
  unfold bare in H. rewrite H in Hlt. lia.
Qed.

Lemma both_In (n : nat) (x : string) :
  In x (flat_map both (seq 0 n)) <->
  exists j, j < n /\ (x = bare j \/ x = ("." ++ bare j)%string).
Proof.
  rewrite in_flat_map. split.
  - intros [j [Hj Hx]]. apply in_seq in Hj. exists j. split; [lia |].
    destruct Hx as [<- | [<- | []]]; [now left | now right].
  - intros [j [Hj Hx]]. exists j. split; [apply in_seq; lia |].
    destruct Hx as [-> | ->]; [now left | right; now left].
Qed.

Lemma add_variants_exact (n : nat) :
  n <= length parts ->
  fold_left (add_variants parts) (seq 0 n) [] = flat_map both (seq 0 n).
Proof.
  induction n as [|n IH]; intros Hn.
  - reflexivity.
  - rewrite seq_S, fold_left_app, flat_map_app, IH by lia.
    cbn [Nat.add fold_left flat_map]. rewrite app_nil_r.
    unfold add_variants, Js.slice_from. cbv zeta. fold (bare n).
    rewrite (set_add_fresh (bare n)).
    + rewrite set_add_fresh.
      * unfold both at 2. now rewrite <- app_assoc.
      * rewrite in_app_iff, both_In. intros [[j [Hj Hx]] | [Hx | []]].
        -- destruct Hx as [Hx | Hx].
           ++ symmetry in Hx. revert Hx. apply bare_not_dotted. lia.
           ++ injection Hx as Hx. symmetry in Hx. revert Hx.
              apply bare_injective; lia.
        -- symmetry in Hx. now apply dotted_differs in Hx.
    + rewrite both_In. intros [j [Hj Hx]]. destruct Hx as [Hx | Hx].
      * symmetry in Hx. revert Hx. apply bare_injective; lia.
      * revert Hx. apply bare_not_dotted. lia.
Qed.

Lemma both_length (js : list nat) :
  length (flat_map both js) = 2 * length js.
Proof. induction js as [|j js IH]; simpl; [reflexivity | rewrite IH; lia]. Qed.

End ExactVariants.

Lemma getSubdomains_listing (url : URL) :
  Forall (fun p => p <> "") (labels url) ->
  getSubdomains url
  = flat_map (fun i => [suffix url i; ("." ++ suffix url i)%string])
             (seq 0 (length (labels url) - 1)).
Proof.
  intros Hne. rewrite getSubdomains_loop.
  assert (Forall (fun p => count_char "." p = 0) (labels url)) as Hnd
    by apply split_no_sep.
  rewrite (add_variants_exact (labels url) Hne Hnd) by lia.
  destruct (Nat.ltb 1 (length (labels url))) eqn:E; [| reflexivity].
  apply Nat.ltb_lt in E.
  rewrite (set_add_known (suffix url (length (labels url) - 2))).
  - apply set_add_known. apply both_In.
    exists (length (labels url) - 2). split; [lia | now right].
  - apply both_In.
    exists (length (labels url) - 2). split; [lia | now left].
Qed.

(** X3. For a host name none of whose labels is empty, [getSubdomains]
    returns exactly, in this order, each suffix of two labels or more
    followed by its dotted form, from the whole name down to the last two
    labels: two variants for every dot of the name, the main domain adding
    nothing. *)
Theorem getSubdomains_exact (url : URL) :
  Forall (fun p => p <> "") (labels url) ->
  getSubdomains url
  = flat_map (fun i => [suffix url i; ("." ++ suffix url i)%string])
             (seq 0 (length (labels url) - 1))
  /\ length (getSubdomains url) = 2 * count_char "." (hostname url).
Proof.
  intros Hne. split; [now apply getSubdomains_listing |].
  rewrite (getSubdomains_listing url Hne).
  rewrite (both_length (labels url)), length_seq, labels_length. lia.
Qed.

Lemma getSubdomains_exact_witness :
  Forall (fun p => p <> "") (labels deep_host)
  /\ getSubdomains deep_host
     = ["a.b.example.com"; ".a.b.example.com"; "b.example.com";
        ".b.example.com"; "example.com"; ".example.com"].
Proof.
  assert (Forall (fun p => p <> "") (labels deep_host)) as H.
  { vm_compute. repeat constructor; discriminate. }
  split; [exact H |].
  exact (proj1 (getSubdomains_exact deep_host H)).
Defined.

(** ** More on cleaning *)

Section Objects.

Lemma set_keys (k : string) (v : Js.Value) (o : Js.Obj) :
  map fst (Js.set k v o)
  = if Js.has k o then map fst o else map fst o ++ [k].
Proof.
  unfold Js.has. induction o as [|[k0 v0] o IH]; simpl.
  - reflexivity.
  - destruct (String.eqb k k0) eqn:E; simpl; [reflexivity |].
    rewrite IH. now destruct (existsb (fun p => String.eqb k (fst p)) o).
Qed.

Lemma has_In (k : string) (o : Js.Obj) :
  Js.has k o = true <-> In k (map fst o).
Proof.
  unfold Js.has. rewrite existsb_exists, in_map_iff. split.
  - intros [p [Hp E]]. apply String.eqb_eq in E. now exists p.
  - intros [p [E Hp]]. exists p. split; [assumption |].
    subst k. apply String.eqb_refl.
Qed.

Lemma set_well_formed (k : string) (v : Js.Value) (o : Js.Obj) :
  well_formed o -> well_formed (Js.set k v o).
Proof.
  unfold well_formed. intros H. rewrite set_keys.
  destruct (Js.has k o) eqn:E; [assumption |].
  assert (~ In k (map fst o)) as Hk.
  { intros Hin. apply has_In in Hin. congruence. }
  clear E. induction (map fst o) as [|a l IH]; simpl.
  - constructor; [intros [] | constructor].
  - inversion H; subst. constructor.
    + rewrite in_app_iff. simpl. intros [H1 | [H1 | []]]; [contradiction |].
      apply Hk. now left.
    + apply IH; [assumption |]. intros H1. apply Hk. now right.
Qed.

Lemma rest_keys (named : list string) (o : Js.Obj) :
  map fst (Js.rest named o)
  = filter (fun k => negb (existsb (String.eqb k) named)) (map fst o).
Proof.
  unfold Js.rest. induction o as [|[k0 v0] o IH]; simpl; [reflexivity |].
  destruct (existsb (String.eqb k0) named); simpl; now rewrite IH.
Qed.

Lemma rest_well_formed (named : list string) (o : Js.Obj) :
  well_formed o -> well_formed (Js.rest named o).
Proof.
  unfold well_formed. rewrite rest_keys. apply NoDup_filter.
Qed.

End Objects.

Lemma cleanCookie_key (cookie : Cookie) (url : URL) :
  cookieKey (cleanCookie cookie url) = cookieKey cookie.
Proof.
  unfold cookieKey, cleanCookie. now rewrite !get_set, !get_rest.
Qed.

(** X4. Cleaning keeps the identity key: the [name] and the [domain] of
    the cleaned record are those of the cookie, so the key under which
    [getAllCookies] files a cookie is the key the heap later gives it. *)
Theorem cleanCookie_keeps_key (cookie : Cookie) (url : URL) :
  Js.get "name" (cleanCookie cookie url) = Js.get "name" cookie
  /\ Js.get "domain" (cleanCookie cookie url) = Js.get "domain" cookie
  /\ cookieKey (cleanCookie cookie url) = cookieKey cookie.
Proof.
  split; [| split; [| apply cleanCookie_key]];
    unfold cleanCookie; now rewrite get_set, get_rest.
Qed.

(** X5. Cleaning keeps an object an object: when no property name occurs
    twice in the cookie none does in the cleaned record, whose names are
    those of the cookie without the four stripped ones, with [url] last
    when the cookie had none. *)
Theorem cleanCookie_well_formed (cookie : Cookie) (url : URL) :
  well_formed cookie ->
  well_formed (cleanCookie cookie url)
  /\ map fst (cleanCookie cookie url)
     = (if Js.has "url" cookie
        then filter (fun k => negb (existsb (String.eqb k) stripped))
                    (map fst cookie)
        else filter (fun k => negb (existsb (String.eqb k) stripped))
                    (map fst cookie) ++ ["url"]).
Proof.
  intros H. split.
  - unfold cleanCookie. apply set_well_formed. now apply rest_well_formed.
  - unfold cleanCookie. rewrite set_keys, has_rest, rest_keys. reflexivity.
Qed.

Lemma cleanCookie_well_formed_witness :
  well_formed cookie_x
  /\ map fst (cleanCookie cookie_x example_com)
     = ["name"; "domain"; "value"; "url"].
Proof.
  assert (well_formed cookie_x) as H.
  { unfold well_formed. vm_compute.
    repeat (constructor; [simpl; intuition discriminate |]). constructor. }
  split; [exact H |].
  exact (proj2 (cleanCookie_well_formed cookie_x example_com H)).
Defined.

(** ** Collecting from the cookie store *)

Section MapSet.

Context {V : Type}.

Lemma map_set_keys (k : string) (v : V) (m : list (string * V)) :
  map fst (Js.map_set k v m)
  = if existsb (String.eqb k) (map fst m) then map fst m
    else map fst m ++ [k].
Proof.
  induction m as [|[k0 v0] m IH]; simpl.
  - reflexivity.
  - destruct (String.eqb k k0) eqn:E; simpl; [reflexivity |].
    rewrite IH. now destruct (existsb (String.eqb k) (map fst m)).
Qed.

Lemma map_set_NoDup (k : string) (v : V) (m : list (string * V)) :
  NoDup (map fst m) -> NoDup (map fst (Js.map_set k v m)).
Proof.
  intros H. rewrite map_set_keys.
  change (NoDup (Js.set_add k (map fst m))). now apply set_add_NoDup.
Qed.

Lemma map_set_keys_In (k k' : string) (v : V) (m : list (string * V)) :
  In k' (map fst (Js.map_set k v m)) <-> k' = k \/ In k' (map fst m).
Proof.
  rewrite map_set_keys.
  change (In k' (Js.set_add k (map fst m)) <-> k' = k \/ In k' (map fst m)).
  apply set_add_In.
Qed.

Lemma map_set_In (k : string) (v : V) (m : list (string * V))
  (p : string * V) :
  In p (Js.map_set k v m) -> p = (k, v) \/ In p m.
Proof.
  induction m as [|[k0 v0] m IH]; simpl.
  - intros [<- | []]. now left.
  - destruct (String.eqb k k0) eqn:E; simpl.
    + apply String.eqb_eq in E. subst k0.
      intros [<- | H]; [now left | right; now right].
    + intros [<- | H]; [right; now left |].
      destruct (IH H) as [-> | H']; [now left | right; now right].
Qed.

End MapSet.

Section Gather.

Variable env : Env.
Variable url : URL.
Variable domains : list string.

Lemma file_cookies (cookies : list Cookie) :
  forall cookieMap,
    (forall raw, In raw cookies ->
                 from_store env url domains (cleanCookie raw url)) ->
    filed env url domains cookieMap ->
    filed env url domains
      (fold_left
         (fun m cookie =>
            Js.map_set (cookieKey cookie) (cleanCookie cookie url) m)
         cookies cookieMap).
Proof.
  induction cookies as [|c cookies IH]; intros m Hc Hm; simpl.
  - assumption.
  - apply IH; [intros raw Hr; apply Hc; now right |].
    destruct Hm as [Hnd Hin]. split.
    + now apply map_set_NoDup.
    + intros k r H. apply map_set_In in H. destruct H as [[= -> ->] | H].
      * split; [symmetry; apply cleanCookie_key | apply Hc; now left].
      * now apply Hin.
Qed.

Lemma file_cookies_keys (cookies : list Cookie) :
  forall cookieMap k,
    In k (map fst
            (fold_left
               (fun m cookie =>
                  Js.map_set (cookieKey cookie) (cleanCookie cookie url) m)
               cookies cookieMap))
    <-> In k (map fst cookieMap) \/ In k (map cookieKey cookies).
Proof.
  induction cookies as [|c cookies IH]; intros m k; simpl.
  - tauto.
  - rewrite IH, map_set_keys_In. intuition congruence.
Qed.

Lemma gather_nil (cookieMap : list (string * Cookie)) :
  gather env url [] cookieMap = Ok cookieMap.
Proof. reflexivity. Qed.

Lemma gather_cons (d : string) (completed : list string)
  (cookieMap : list (string * Cookie)) :
  gather env url (d :: completed) cookieMap
  = match cookieStore env d with
    | Throw message => Throw message
    | Ok cookies =>
        gather env url completed
          (fold_left
             (fun m cookie =>
                Js.map_set (cookieKey cookie) (cleanCookie cookie url) m)
             cookies cookieMap)
    end.
Proof. reflexivity. Qed.

Lemma gather_filed (completed : list string) :
  forall cookieMap result,
    incl completed domains ->
    filed env url domains cookieMap ->
    gather env url completed cookieMap = Ok result ->
    filed env url domains result.
Proof.
  induction completed as [|d completed IH]; intros m result Hincl Hm H;
    [rewrite gather_nil in H | rewrite gather_cons in H].
  - now injection H as <-.
  - destruct (cookieStore env d) as [cookies|] eqn:E; [| discriminate].
    apply IH in H; [assumption | intros x Hx; apply Hincl; now right |].
    apply file_cookies; [| assumption].
    intros raw Hr. exists d, cookies, raw.
    repeat split; [apply Hincl; now left | assumption | assumption].
Qed.

Lemma gather_keys (completed : list string) :
  forall cookieMap result,
    gather env url completed cookieMap = Ok result ->
    forall k,
      In k (map fst result)
      <-> In k (map fst cookieMap)
          \/ exists d cookies raw,
               In d completed /\ cookieStore env d = Ok cookies
               /\ In raw cookies /\ k = cookieKey raw.
Proof.
  induction completed as [|d completed IH]; intros m result H k;
    [rewrite gather_nil in H | rewrite gather_cons in H].
  - injection H as <-. split; [now left |].
    intros [Hk | [d [cs [raw [[] _]]]]]. assumption.
  - destruct (cookieStore env d) as [cookies|] eqn:E; [| discriminate].
    rewrite (IH _ _ H), file_cookies_keys. split.
    + intros [[Hk | Hk] | [d' [cs [raw [Hd [Hs [Hr Hk]]]]]]].
      * now left.
      * right. apply in_map_iff in Hk. destruct Hk as [raw [<- Hr]].
        exists d, cookies, raw. repeat split; [now left | assumption ..].
      * right. exists d', cs, raw. repeat split; [now right | assumption ..].
    + intros [Hk | [d' [cs [raw [[<- | Hd] [Hs [Hr Hk]]]]]]].
      * left. now left.
      * left. right. rewrite E in Hs. injection Hs as <-.
        subst k. now apply in_map.
      * right. exists d', cs, raw. repeat split; assumption.
Qed.

Lemma gather_succeeds_iff (completed : list string) :
  forall cookieMap,
    (exists result, gather env url completed cookieMap = Ok result)
    <-> forall d, In d completed -> exists cookies, cookieStore env d = Ok cookies.
Proof.
  induction completed as [|d completed IH]; intros m;
    [rewrite gather_nil | rewrite gather_cons].
  - split; [intros _ d [] | intros _; now eexists].
  - destruct (cookieStore env d) as [cookies|] eqn:E.
    + rewrite IH. split.
      * intros H d' [<- | Hd]; [now exists cookies | now apply H].
      * intros H d' Hd. apply H. now right.
    + split.
      * intros [result H]. discriminate H.
      * intros H. destruct (H d (or_introl eq_refl)) as [cookies Hc].
        rewrite E in Hc. discriminate Hc.
Qed.

End Gather.

Lemma filed_values_deduped (env : Env) (url : URL) (domains : list string)
  (cookieMap : list (string * Cookie)) :
  filed env url domains cookieMap ->
  map cookieKey (Js.map_values cookieMap) = map fst cookieMap.
Proof.
  intros [_ H]. unfold Js.map_values. rewrite map_map.
  apply map_ext_in. intros [k r] Hin. simpl.
  destruct (H k r Hin) as [-> _]. reflexivity.
Qed.

Lemma filed_nil (env : Env) (url : URL) (domains : list string) :
  filed env url domains [].
Proof. split; [constructor | intros k r []]. Qed.

(** X6. What [getAllCookies] returns has no identity key twice, and each
    record is the cleaning of a cookie the store returned for one of the
    queried domains, so it carries the [url] of the page and none of the
    stripped fields; the browser is left as it was. *)
Theorem getAllCookies_deduped_and_clean (env : Env) (url : URL)
  (b : Browser) (cookies : list Cookie) :
  fst (getAllCookies env url b) = Ok cookies ->
  snd (getAllCookies env url b) = b
  /\ deduped cookies
  /\ forall r, In r cookies ->
       from_store env url (schedule env (getSubdomains url)) r
       /\ Js.get "url" r = Js.Str (origin url)
       /\ forallb (fun k => negb (Js.has k r)) stripped = true.
Proof.
  unfold getAllCookies.
  destruct (gather env url (schedule env (getSubdomains url)) [])
    as [cookieMap|] eqn:E; simpl; [| discriminate].
  intros [= <-].
  pose proof (gather_filed env url (schedule env (getSubdomains url))
                (schedule env (getSubdomains url)) [] cookieMap
                (incl_refl _) (filed_nil _ _ _) E) as Hf.
  split; [reflexivity | split].
  - unfold deduped. rewrite (filed_values_deduped _ _ _ _ Hf). apply Hf.
  - intros r Hr. unfold Js.map_values in Hr. apply in_map_iff in Hr.
    destruct Hr as [[k r'] [<- Hin]]. simpl.
    destruct Hf as [_ Hf]. destruct (Hf k r' Hin) as [_ Hs].
    split; [exact Hs |].
    destruct Hs as [d [cs [raw [_ [_ [_ ->]]]]]].
    unfold cleanCookie. split.
    + now rewrite get_set.
    + simpl. rewrite !has_set, !has_rest. reflexivity.
Qed.

Lemma getAllCookies_deduped_and_clean_witness :
  deduped [cleanCookie cookie_x example_com].
Proof.
  exact (proj1 (proj2 (getAllCookies_deduped_and_clean env_online example_com
                         initialBrowser [cleanCookie cookie_x example_com]
                         eq_refl))).
Defined.

(** X7. [getAllCookies] succeeds exactly when every query resolves: one
    domain whose query rejects rejects the whole collection.  When it
    succeeds, the keys returned are exactly the keys of the cookies the
    store holds for the queried domains. *)
Theorem getAllCookies_all_or_nothing (env : Env) (url : URL) (b : Browser) :
  ((exists cookies, fst (getAllCookies env url b) = Ok cookies)
   <-> forall d, In d (schedule env (getSubdomains url)) ->
                 exists cookies, cookieStore env d = Ok cookies)
  /\ forall cookies k,
       fst (getAllCookies env url b) = Ok cookies ->
       (In k (map cookieKey cookies)
        <-> exists d stored raw,
             In d (schedule env (getSubdomains url))
             /\ cookieStore env d = Ok stored
             /\ In raw stored /\ k = cookieKey raw).
Proof.
  split.
  - rewrite <- (gather_succeeds_iff env url _ []). unfold getAllCookies.
    destruct (gather env url (schedule env (getSubdomains url)) [])
      as [cookieMap|]; simpl; split.
    + intros _. now eexists.
    + intros _. now eexists.
    + intros [cookies H]. discriminate H.
    + intros [result H]. discriminate H.
  - intros cookies k. unfold getAllCookies.
    destruct (gather env url (schedule env (getSubdomains url)) [])
      as [cookieMap|] eqn:E; simpl; [| discriminate].
    intros [= <-].
    pose proof (gather_filed env url (schedule env (getSubdomains url))
                  (schedule env (getSubdomains url)) [] cookieMap
                  (incl_refl _) (filed_nil _ _ _) E) as Hf.
    rewrite (filed_values_deduped _ _ _ _ Hf).
    rewrite (gather_keys env url _ _ _ E k). simpl. tauto.
Qed.

(** ** More on merging *)

Section MergeMore.

Lemma distinct_app_tail (l m : list string) :
  exists tail,
    distinct (l ++ m) = distinct l ++ tail
    /\ forall k, In k tail -> In k m /\ ~ In k l.
Proof.
  induction m as [|a m IH] using rev_ind.
  - exists []. rewrite !app_nil_r. split; [reflexivity | intros k []].
  - destruct IH as [tail [E Ht]].
    rewrite app_assoc, distinct_snoc, E. unfold Js.set_add.
    destruct (existsb (String.eqb a) (distinct l ++ tail)) eqn:Ea.
    + exists tail. split; [reflexivity |].
      intros k Hk. destruct (Ht k Hk) as [H1 H2].
      split; [rewrite in_app_iff; now left | assumption].
    + exists (tail ++ [a]). split; [now rewrite app_assoc |].
      intros k Hk. rewrite in_app_iff in Hk. destruct Hk as [Hk | [<- | []]].
      * destruct (Ht k Hk) as [H1 H2].
        split; [rewrite in_app_iff; now left | assumption].
      * split; [rewrite in_app_iff; right; now left |].
        intros Hin.
        assert (In a (distinct l ++ tail)) as Hin'.
        { rewrite in_app_iff. left. now apply distinct_In. }
        apply existsb_eqb_In in Hin'. congruence.
Qed.

Lemma lastWithKey_app (k : string) (p q : list Cookie) :
  lastWithKey k (p ++ q)
  = match lastWithKey k q with
    | Some c => Some c
    | None => lastWithKey k p
    end.
Proof.
  induction p as [|a p IH]; simpl.
  - now destruct (lastWithKey k q).
  - rewrite IH. now destruct (lastWithKey k q).
Qed.

Lemma lastWithKey_absent (k : string) (p : list Cookie) :
  ~ In k (map cookieKey p) -> lastWithKey k p = None.
Proof.
  intros H. destruct (lastWithKey k p) as [c|] eqn:E; [| reflexivity].
  apply lastWithKey_Some in E. destruct E as [Hin <-].
  exfalso. apply H. now apply in_map.
Qed.

Lemma lastWithKey_unique (p : list Cookie) (c : Cookie) :
  deduped p -> In c p -> lastWithKey (cookieKey c) p = Some c.
Proof.
  unfold deduped. induction p as [|a p IH]; simpl; intros Hd Hin;
    [contradiction |].
  inversion Hd as [|? ? Ha Hp]; subst. destruct Hin as [-> | Hin].
  - rewrite (lastWithKey_absent _ _ Ha). now rewrite String.eqb_refl.
  - now rewrite (IH Hp Hin).
Qed.

Lemma entries_In (p : list Cookie) (D : list string) (k : string)
  (c : Cookie) :
  In k D -> lastWithKey k p = Some c ->
  In c (map snd (flat_map (entry p) D)).
Proof.
  intros Hk Hc. apply in_map_iff. exists (k, c). split; [reflexivity |].
  apply in_flat_map. exists k. split; [assumption |].
  unfold entry. rewrite Hc. now left.
Qed.

Lemma flat_map_ext_In {A B} (f g : A -> list B) (l : list A) :
  (forall a, In a l -> f a = g a) -> flat_map f l = flat_map g l.
Proof.
  induction l as [|a l IH]; intros H; simpl; [reflexivity |].
  rewrite (H a (or_introl eq_refl)), IH; [reflexivity |].
  intros x Hx. apply H. now right.
Qed.

End MergeMore.

Lemma merge_as_entries (existing incoming : list Cookie) :
  mergeAndDedupeCookies existing incoming
  = map snd (flat_map (entry (existing ++ incoming))
                      (distinct (map cookieKey (existing ++ incoming)))).
Proof.
  unfold mergeAndDedupeCookies, Js.map_values.
  now rewrite collect_foldIntoMapping.
Qed.

Lemma merge_recollect (existing incoming : list Cookie) :
  mergeAndDedupeCookies (mergeAndDedupeCookies existing incoming) incoming
  = mergeAndDedupeCookies existing incoming.
Proof.
  set (R := mergeAndDedupeCookies existing incoming).
  assert (map cookieKey R
          = distinct (map cookieKey (existing ++ incoming))) as HkR
    by apply merge_keys.
  assert (deduped R) as HdR by apply merge_deduped.
  rewrite (merge_as_entries R incoming).
  assert (distinct (map cookieKey (R ++ incoming)) = map cookieKey R) as HD.
  { rewrite map_app, distinct_app_known.
    - now apply distinct_of_NoDup.
    - intros k Hk. rewrite HkR. apply distinct_In.
      rewrite map_app, in_app_iff. now right. }
  rewrite HD, HkR. unfold R at 2. rewrite merge_as_entries. f_equal.
  apply flat_map_ext_In. intros k Hk. unfold entry.
  rewrite !lastWithKey_app.
  destruct (lastWithKey k incoming) as [c|] eqn:Ec; [reflexivity |].
  apply (proj1 (distinct_In _ _)) in Hk.
  destruct (lastWithKey_present k _ Hk) as [c0 Hc0].
  pose proof Hc0 as Hc1. rewrite lastWithKey_app, Ec in Hc1. rewrite Hc1.
  assert (In c0 R) as Hin.
  { unfold R. rewrite merge_as_entries.
    apply (entries_In _ _ k); [now apply distinct_In | assumption]. }
  apply lastWithKey_Some in Hc0. destruct Hc0 as [_ <-].
  now rewrite (lastWithKey_unique R c0 HdR Hin).
Qed.

(** X8. Merging keeps the heap's records in their places: when the heap
    has no key twice, the keys of the merge are the keys of the heap in
    their order, followed by the keys that are new, each of which comes
    from the incoming records. *)
Theorem mergeAndDedupeCookies_keeps_order (existing incoming : list Cookie) :
  deduped existing ->
  exists fresh,
    map cookieKey (mergeAndDedupeCookies existing incoming)
    = map cookieKey existing ++ fresh
    /\ forall k, In k fresh ->
                 In k (map cookieKey incoming)
                 /\ ~ In k (map cookieKey existing).
Proof.
  intros H. rewrite merge_keys, map_app.
  destruct (distinct_app_tail (map cookieKey existing)
              (map cookieKey incoming)) as [tail [E Ht]].
  exists tail. rewrite E, (distinct_of_NoDup _ H).
  split; [reflexivity | assumption].
Qed.

Lemma mergeAndDedupeCookies_keeps_order_witness :
  exists fresh,
    map cookieKey (mergeAndDedupeCookies [cookie_a] [cookie_b; cookie_a_new])
    = map cookieKey [cookie_a] ++ fresh
    /\ forall k, In k fresh ->
                 In k (map cookieKey [cookie_b; cookie_a_new])
                 /\ ~ In k (map cookieKey [cookie_a]).
Proof.
  apply (mergeAndDedupeCookies_keeps_order [cookie_a] [cookie_b; cookie_a_new]).
  unfold deduped. simpl. constructor; [intros [] | constructor].
Defined.

(** X9. Merging the same incoming records a second time changes
    nothing: [merge (merge X Y) Y = merge X Y]. *)
Theorem mergeAndDedupeCookies_recollect (existing incoming : list Cookie) :
  mergeAndDedupeCookies (mergeAndDedupeCookies existing incoming) incoming
  = mergeAndDedupeCookies existing incoming.
Proof. apply merge_recollect. Qed.

(** X10. Which record a key ends with: a key that some incoming record has
    carries the last incoming record with that key, whatever the heap
    held; any other key carries the last record of the heap with it. *)
Theorem mergeAndDedupeCookies_incoming_wins (existing incoming : list Cookie)
  (c : Cookie) :
  In c (mergeAndDedupeCookies existing incoming) ->
  (In (cookieKey c) (map cookieKey incoming) ->
   lastWithKey (cookieKey c) incoming = Some c)
  /\ (~ In (cookieKey c) (map cookieKey incoming) ->
      lastWithKey (cookieKey c) existing = Some c).
Proof.
  intros H. unfold mergeAndDedupeCookies, Js.map_values in H.
  rewrite collect_foldIntoMapping in H. apply foldIntoMapping_last in H.
  rewrite lastWithKey_app in H. split; intros Hk.
  - destruct (lastWithKey_present _ _ Hk) as [c' Hc'].
    now rewrite Hc' in H |- *.
  - now rewrite (lastWithKey_absent _ _ Hk) in H.
Qed.

Lemma mergeAndDedupeCookies_incoming_wins_witness :
  lastWithKey (cookieKey cookie_a_new) [cookie_b; cookie_a_new]
  = Some cookie_a_new.
Proof.
  apply (proj1 (mergeAndDedupeCookies_incoming_wins [cookie_a]
                  [cookie_b; cookie_a_new] cookie_a_new
                  (or_introl eq_refl))).
  right. now left.
Defined.

(** ** Reading and writing the holder *)

(** X11. [getCookiesHeap] returns the holder's heap as it is, the empty
    heap included (an empty array is truthy, so the guard lets it pass and
    [NO_RESPONSE] is never thrown), and fails only with the error of the
    port; it sends one request and changes nothing else. *)
Theorem getCookiesHeap_reads (env : Env) (b : Browser) :
  fst (getCookiesHeap env b)
  = match lastError env GET_REQUEST with
    | Some error => Throw error
    | None => Ok (cookiesHeap b)
    end
  /\ cookiesHeap (snd (getCookiesHeap env b)) = cookiesHeap b
  /\ sent (snd (getCookiesHeap env b)) = sent b ++ [GET_REQUEST]
  /\ statusHTML (snd (getCookiesHeap env b)) = statusHTML b
  /\ errorHTML (snd (getCookiesHeap env b)) = errorHTML b
  /\ clipboard (snd (getCookiesHeap env b)) = clipboard b.
Proof.
  unfold GET_REQUEST. unfold_handlers. cbn.
  destruct (lastError env (mkMessage "getCookiesHeap" [])); cbn;
    repeat split.
Qed.

(** X12. What [setCookiesHeap] wrote is what [getCookiesHeap] reads next,
    for every sequence, the empty one included, when the port delivers
    both requests. *)
Theorem set_then_get (A : Type) (result : A) (env env' : Env)
  (value : list Cookie) (b : Browser) :
  lastError env (mkMessage "setCookiesHeap" value) = None ->
  lastError env' GET_REQUEST = None ->
  fst (setCookiesHeap result env value b) = Ok result
  /\ fst (getCookiesHeap env' (snd (setCookiesHeap result env value b)))
     = Ok value.
Proof.
  unfold GET_REQUEST. intros Hset Hget. unfold_handlers. cbn.
  rewrite Hset. cbn. rewrite Hget. cbn. split; reflexivity.
Qed.

Lemma set_then_get_witness :
  fst (getCookiesHeap env_online
         (snd (setCookiesHeap true env_online [] (browser_with_cookie PopupJs))))
  = Ok [].
Proof.
  exact (proj2 (set_then_get bool true env_online env_online []
                  (browser_with_cookie PopupJs) eq_refl eq_refl)).
Defined.

(** X13. [initialize] never throws and never writes: with the port up it
    shows the count of the heap and leaves the error banner; with the port
    down it shows the initialisation error and leaves the status; the heap
    and the clipboard are as before and no write request is sent. *)
Theorem initialize_shows_count (env : Env) (b : Browser) :
  fst (initialize env b) = Ok tt
  /\ cookiesHeap (snd (initialize env b)) = cookiesHeap b
  /\ clipboard (snd (initialize env b)) = clipboard b
  /\ sent (snd (initialize env b)) = sent b ++ [GET_REQUEST]
  /\ match lastError env GET_REQUEST with
     | None =>
         statusHTML (snd (initialize env b))
         = COOKIES_COUNT (length (cookiesHeap b))
         /\ errorHTML (snd (initialize env b)) = errorHTML b
     | Some error =>
         statusHTML (snd (initialize env b)) = statusHTML b
         /\ errorHTML (snd (initialize env b)) = INIT_ERROR error
     end.
Proof.
  unfold GET_REQUEST, initialize. unfold_handlers. cbn.
  destruct (lastError env (mkMessage "getCookiesHeap" [])); cbn;
    repeat split.
Qed.

(** ** More on get-cookies *)

Lemma grows_deduped (edition : Edition) (heap cookies : list Cookie) :
  deduped heap ->
  grows edition (length heap)
        (length (mergeAndDedupeCookies heap cookies))
  = Nat.ltb (length heap) (length (mergeAndDedupeCookies heap cookies)).
Proof.
  intros H. pose proof (merge_length_ge heap cookies H) as Hge.
  destruct edition; [reflexivity |]. unfold grows.
  destruct (Nat.eqb_spec (length (mergeAndDedupeCookies heap cookies))
              (length heap)) as [E | E];
    destruct (Nat.ltb_spec (length heap)
                (length (mergeAndDedupeCookies heap cookies)));
    simpl; try reflexivity; lia.
Qed.

Lemma handle_get_heap (edition : Edition) (env : Env) (b : Browser) :
  cookiesHeap (snd (handle edition GetCookies env b))
  = heap_after_get edition env (cookiesHeap b).
Proof.
  unfold heap_after_get, collected, GET_REQUEST, grows.
  destruct edition; unfold_handlers;
    destruct (activeTab env) as [url|]; cbn; try reflexivity;
    destruct (gather env url (schedule env (getSubdomains url)) [])
      as [cookieMap|]; cbn; try reflexivity;
    destruct (lastError env (mkMessage "getCookiesHeap" [])); cbn;
    try reflexivity.
  - destruct (Nat.ltb (length (cookiesHeap b))
                (length (mergeAndDedupeCookies (cookiesHeap b)
                           (Js.map_values cookieMap)))); cbn;
      [| reflexivity].
    destruct (lastError env
                (mkMessage "setCookiesHeap"
                   (mergeAndDedupeCookies (cookiesHeap b)
                      (Js.map_values cookieMap)))); reflexivity.
  - change (Js.map_values
              (collect (cookiesHeap b ++ Js.map_values cookieMap) []))
      with (mergeAndDedupeCookies (cookiesHeap b) (Js.map_values cookieMap)).
    destruct (Nat.eqb
                (length (mergeAndDedupeCookies (cookiesHeap b)
                           (Js.map_values cookieMap)))
                (length (cookiesHeap b))); cbn; [reflexivity |].
    destruct (lastError env
                (mkMessage "setCookiesHeap"
                   (mergeAndDedupeCookies (cookiesHeap b)
                      (Js.map_values cookieMap)))); reflexivity.
Qed.

(** X14. A get-cookies that finds new cookies stores the merge and reports
    it: the holder's heap is the merge, the status shows its length, the
    error banner is cleared and as many cookies fall as the heap holds. *)
Theorem handleGetCookies_stores (edition : Edition) (env : Env)
  (b : Browser) (cookies : list Cookie) :
  collected env = Ok cookies ->
  lastError env GET_REQUEST = None ->
  lastError env
    (mkMessage "setCookiesHeap"
       (mergeAndDedupeCookies (cookiesHeap b) cookies)) = None ->
  length (cookiesHeap b)
  < length (mergeAndDedupeCookies (cookiesHeap b) cookies) ->
  fst (handle edition GetCookies env b)
  = Ok (Stored (length (mergeAndDedupeCookies (cookiesHeap b) cookies)))
  /\ cookiesHeap (snd (handle edition GetCookies env b))
     = mergeAndDedupeCookies (cookiesHeap b) cookies
  /\ statusHTML (snd (handle edition GetCookies env b))
     = COOKIES_COUNT (length (cookiesHeap (snd (handle edition GetCookies env b))))
  /\ errorHTML (snd (handle edition GetCookies env b)) = ""
  /\ animated (snd (handle edition GetCookies env b))
     = animated b
       ++ [length (mergeAndDedupeCookies (cookiesHeap b) cookies)].
Proof.
  intros Hc Hget Hset Hlt. unfold collected in Hc. unfold GET_REQUEST in Hget.
  destruct (activeTab env) as [url|] eqn:Etab; [| discriminate].
  destruct (gather env url (schedule env (getSubdomains url)) [])
    as [cookieMap|] eqn:Eg; [| discriminate].
  injection Hc as <-.
  destruct edition; unfold_handlers; rewrite Etab; cbn; rewrite Eg; cbn;
    rewrite Hget; cbn.
  - apply Nat.ltb_lt in Hlt. rewrite Hlt. cbn. rewrite Hset. cbn.
    repeat split.
  - change (Js.map_values
              (collect (cookiesHeap b ++ Js.map_values cookieMap) []))
      with (mergeAndDedupeCookies (cookiesHeap b) (Js.map_values cookieMap)).
    assert (Nat.eqb
              (length (mergeAndDedupeCookies (cookiesHeap b)
                         (Js.map_values cookieMap)))
              (length (cookiesHeap b)) = false) as E
      by (apply Nat.eqb_neq; lia).
    rewrite E. cbn. rewrite Hset. cbn. repeat split.
Qed.

Lemma handleGetCookies_stores_witness :
  fst (handle PopupJs GetCookies env_online (opened env_online))
  = Ok (Stored 1)
  /\ statusHTML (snd (handle PopupJs GetCookies env_online
                        (opened env_online)))
     = COOKIES_COUNT 1.
Proof.
  assert (length (cookiesHeap (opened env_online))
          < length (mergeAndDedupeCookies (cookiesHeap (opened env_online))
                      [cleanCookie cookie_x example_com])) as Hlt.
  { vm_compute. lia. }
  destruct (handleGetCookies_stores PopupJs env_online (opened env_online)
              [cleanCookie cookie_x example_com]
              eq_refl eq_refl eq_refl Hlt) as [H1 [_ [H3 _]]].
  split; [exact H1 | exact H3].
Defined.

Lemma heap_after_get_cases (edition : Edition) (env : Env)
  (heap : list Cookie) :
  heap_after_get edition env heap = heap
  \/ exists cookies,
      collected env = Ok cookies
      /\ heap_after_get edition env heap = mergeAndDedupeCookies heap cookies.
Proof.
  unfold heap_after_get.
  destruct (collected env) as [cookies|]; [| now left].
  destruct (lastError env GET_REQUEST); [now left |]. cbv zeta.
  destruct (grows edition _ _); [| now left].
  destruct (lastError env _); [now left |].
  right. now exists cookies.
Qed.

(** X15. A get-cookies changes the holder's heap in one way only: the
    heap after is the heap before, or the merge of the heap before with the
    cookies collected; the clipboard is never touched. *)
Theorem handleGetCookies_heap_or_merge (edition : Edition) (env : Env)
  (b : Browser) :
  (cookiesHeap (snd (handle edition GetCookies env b)) = cookiesHeap b
   \/ exists cookies,
        collected env = Ok cookies
        /\ cookiesHeap (snd (handle edition GetCookies env b))
           = mergeAndDedupeCookies (cookiesHeap b) cookies)
  /\ clipboard (snd (handle edition GetCookies env b)) = clipboard b.
Proof.
  split.
  - rewrite handle_get_heap. apply heap_after_get_cases.
  - destruct edition; run_handler; reflexivity.
Qed.

(** X16. A get-cookies never loses an identity key: every key of the heap
    before is a key of the heap after, in both variants and whatever the
    browser answers. *)
Theorem handleGetCookies_keeps_keys (edition : Edition) (env : Env)
  (b : Browser) (k : string) :
  In k (map cookieKey (cookiesHeap b)) ->
  In k (map cookieKey (cookiesHeap (snd (handle edition GetCookies env b)))).
Proof.
  intros H. rewrite handle_get_heap.
  destruct (heap_after_get_cases edition env (cookiesHeap b))
    as [-> | [cookies [_ ->]]]; [assumption |].
  rewrite merge_keys. apply distinct_In. rewrite map_app, in_app_iff.
  now left.
Qed.

Lemma handleGetCookies_keeps_keys_witness :
  In "x_d"
     (map cookieKey
        (cookiesHeap (snd (handle ClassBased GetCookies env_quiet
                             (browser_with_cookie ClassBased))))).
Proof.
  apply (handleGetCookies_keeps_keys ClassBased env_quiet
           (browser_with_cookie ClassBased) "x_d").
  vm_compute. now left.
Defined.

(** X17. Known keys are not refreshed: when every collected cookie has a
    key the heap already holds, and the heap has no key twice, nothing is
    written, even if the collected records differ from the stored ones.
    New values reach the heap only together with a new key. *)
Theorem handleGetCookies_known_keys_stale (edition : Edition) (env : Env)
  (b : Browser) (cookies : list Cookie) :
  deduped (cookiesHeap b) ->
  collected env = Ok cookies ->
  (forall c, In c cookies ->
             In (cookieKey c) (map cookieKey (cookiesHeap b))) ->
  cookiesHeap (snd (handle edition GetCookies env b)) = cookiesHeap b.
Proof.
  intros Hd Hc Hk. rewrite handle_get_heap. unfold heap_after_get.
  rewrite Hc. destruct (lastError env GET_REQUEST); [reflexivity |].
  cbv zeta. rewrite grows_deduped by assumption.
  destruct (merge_known_keys (cookiesHeap b) cookies Hd Hk) as [_ Hlen].
  rewrite Hlen, Nat.ltb_irrefl. reflexivity.
Qed.

Lemma handleGetCookies_known_keys_stale_witness :
  Js.get "value" (cleanCookie cookie_x_changed example_com) = Js.Str "w"
  /\ cookiesHeap (snd (handle ClassBased GetCookies env_changed
                         (browser_with_cookie ClassBased)))
     = [cleanCookie cookie_x example_com].
Proof.
  split; [reflexivity |].
  apply (handleGetCookies_known_keys_stale ClassBased env_changed
           (browser_with_cookie ClassBased)
           [cleanCookie cookie_x_changed example_com]).
  - unfold deduped. vm_compute. constructor; [intros [] | constructor].
  - reflexivity.
  - intros c [<- | []]. vm_compute. now left.
Defined.

Lemma heap_after_get_twice (edition : Edition) (env : Env)
  (heap : list Cookie) :
  heap_after_get edition env (heap_after_get edition env heap)
  = heap_after_get edition env heap.
Proof.
  destruct (heap_after_get_cases edition env heap)
    as [E | [cookies [Hc E]]].
  - now rewrite !E.
  - rewrite E. unfold heap_after_get at 1. rewrite Hc.
    destruct (lastError env GET_REQUEST); [reflexivity |]. cbv zeta.
    rewrite merge_recollect.
    assert (grows edition
              (length (mergeAndDedupeCookies heap cookies))
              (length (mergeAndDedupeCookies heap cookies)) = false) as Hg.
    { destruct edition; simpl;
        [apply Nat.ltb_irrefl | now rewrite Nat.eqb_refl]. }
    now rewrite Hg.
Qed.

(** X18. Clicking get-cookies twice on the same page is clicking once:
    with the same answers from the browser, the second click leaves the
    holder's heap as the first one left it. *)
Theorem handleGetCookies_twice (edition : Edition) (env : Env) (b : Browser) :
  cookiesHeap
    (snd (handle edition GetCookies env
            (snd (handle edition GetCookies env b))))
  = cookiesHeap (snd (handle edition GetCookies env b)).
Proof. rewrite !handle_get_heap. apply heap_after_get_twice. Qed.

(** X19. The two variants of the popup agree on get-cookies: on a heap
    that has no key twice, [popup.js] (early return when the lengths are
    equal) and the class (write when the merge is longer) take the same
    branch and leave the same browser. *)
Theorem handleGetCookies_editions_agree (env : Env) (b : Browser) :
  deduped (cookiesHeap b) ->
  handle PopupJs GetCookies env b = handle ClassBased GetCookies env b.
Proof.
  intros Hd. unfold_handlers.
  destruct (activeTab env) as [url|]; cbn; [| reflexivity].
  destruct (gather env url (schedule env (getSubdomains url)) [])
    as [cookieMap|]; cbn; [| reflexivity].
  destruct (lastError env (mkMessage "getCookiesHeap" [])); cbn;
    [reflexivity |].
  change (Js.map_values
            (collect (cookiesHeap b ++ Js.map_values cookieMap) []))
    with (mergeAndDedupeCookies (cookiesHeap b) (Js.map_values cookieMap)).
  pose proof (grows_deduped PopupJs (cookiesHeap b)
                (Js.map_values cookieMap) Hd) as Hg.
  unfold grows in Hg.
  destruct (Nat.ltb (length (cookiesHeap b))
              (length (mergeAndDedupeCookies (cookiesHeap b)
                         (Js.map_values cookieMap)))) eqn:E1;
    destruct (Nat.eqb
                (length (mergeAndDedupeCookies (cookiesHeap b)
                           (Js.map_values cookieMap)))
                (length (cookiesHeap b))) eqn:E2;
    try discriminate Hg; cbn; [| reflexivity].
  destruct (lastError env
              (mkMessage "setCookiesHeap"
                 (mergeAndDedupeCookies (cookiesHeap b)
                    (Js.map_values cookieMap)))); reflexivity.
Qed.

Lemma handleGetCookies_editions_agree_witness :
  handle PopupJs GetCookies env_changed (browser_with_cookie PopupJs)
  = handle ClassBased GetCookies env_changed (browser_with_cookie PopupJs).
Proof.
  apply (handleGetCookies_editions_agree env_changed
           (browser_with_cookie PopupJs)).
  unfold deduped. vm_compute. constructor; [intros [] | constructor].
Defined.

(** ** More on export *)

(** X20. An export on an empty heap stops at the empty-heap message:
    nothing is written to the clipboard, no request to clear is sent, the
    heap stays empty and the status stays as it was. *)
Theorem export_of_empty_heap (edition : Edition) (env : Env) (b : Browser) :
  cookiesHeap b = [] ->
  lastError env GET_REQUEST = None ->
  fst (handle edition CopyToClipboard env b) = Ok EmptyHeap
  /\ errorHTML (snd (handle edition CopyToClipboard env b)) = EMPTY_HEAP
  /\ clipboard (snd (handle edition CopyToClipboard env b)) = clipboard b
  /\ cookiesHeap (snd (handle edition CopyToClipboard env b)) = []
  /\ statusHTML (snd (handle edition CopyToClipboard env b)) = statusHTML b
  /\ sent (snd (handle edition CopyToClipboard env b))
     = sent b ++ [GET_REQUEST].
Proof.
  unfold GET_REQUEST. intros Hh Hget.
  destruct edition; unfold_handlers; cbn; rewrite Hget; cbn; rewrite Hh; cbn;
    repeat split.
Qed.

Lemma export_of_empty_heap_witness :
  fst (handle ClassBased CopyToClipboard env_online (opened env_online))
  = Ok EmptyHeap
  /\ clipboard (snd (handle ClassBased CopyToClipboard env_online
                       (opened env_online))) = None.
Proof.
  destruct (export_of_empty_heap ClassBased env_online (opened env_online)
              eq_refl eq_refl) as [H1 [_ [H3 _]]].
  split; [exact H1 | exact H3].
Defined.

Lemma copied_heap_empty (edition : Edition) (env : Env) (b : Browser) :
  fst (handle edition CopyToClipboard env b) = Ok Copied ->
  cookiesHeap (snd (handle edition CopyToClipboard env b)) = [].
Proof.
  destruct edition; run_handler; intros H; try discriminate H; reflexivity.
Qed.

(** X21. An export that succeeded cannot be repeated: the next export,
    whatever the browser answers to it short of losing the port, stops at
    the empty-heap message and leaves the clipboard with the text of the
    first. *)
Theorem export_twice (edition : Edition) (env env' : Env) (b : Browser) :
  fst (handle edition CopyToClipboard env b) = Ok Copied ->
  lastError env' GET_REQUEST = None ->
  fst (handle edition CopyToClipboard env'
         (snd (handle edition CopyToClipboard env b))) = Ok EmptyHeap
  /\ clipboard (snd (handle edition CopyToClipboard env'
                       (snd (handle edition CopyToClipboard env b))))
     = clipboard (snd (handle edition CopyToClipboard env b)).
Proof.
  intros Hc Hget. apply copied_heap_empty in Hc.
  unfold GET_REQUEST in Hget.
  set (b1 := snd (handle edition CopyToClipboard env b)) in *.
  clearbody b1.
  destruct edition; unfold_handlers; cbn; rewrite Hget; cbn; rewrite Hc; cbn;
    split; reflexivity.
Qed.

Lemma export_twice_witness :
  fst (handle PopupJs CopyToClipboard env_online
         (snd (handle PopupJs CopyToClipboard env_online
                 (browser_with_cookie PopupJs)))) = Ok EmptyHeap.
Proof.
  exact (proj1 (export_twice PopupJs env_online env_online
                  (browser_with_cookie PopupJs) eq_refl eq_refl)).
Defined.

(** X22. When the request to clear is lost after the clipboard was
    written, the popup shows both the success status and the error
    banner: the text is on the clipboard, the status says copied, the
    banner carries the error of the port, and the heap keeps its records. *)
Theorem export_with_lost_clear (edition : Edition) (env : Env) (b : Browser)
  (error : string) :
  cookiesHeap b <> [] ->
  lastError env GET_REQUEST = None ->
  writeText env (clipboard_text edition env (cookiesHeap b)) = None ->
  lastError env CLEAR_REQUEST = Some error ->
  fst (handle edition CopyToClipboard env b) = Ok (Caught error)
  /\ statusHTML (snd (handle edition CopyToClipboard env b)) = COPY_SUCCESS
  /\ errorHTML (snd (handle edition CopyToClipboard env b))
     = COPY_ERROR error
  /\ clipboard (snd (handle edition CopyToClipboard env b))
     = Some (clipboard_text edition env (cookiesHeap b))
  /\ cookiesHeap (snd (handle edition CopyToClipboard env b))
     = cookiesHeap b.
Proof.
  intros Hne Hget Hw Hclear.
  unfold GET_REQUEST, CLEAR_REQUEST, clipboard_text in *.
  assert (Nat.eqb (length (cookiesHeap b)) 0 = false) as Hlen.
  { apply Nat.eqb_neq. destruct (cookiesHeap b); [congruence | discriminate]. }
  destruct edition; unfold_handlers; cbn;
    rewrite Hget; cbn; rewrite Hlen; cbn; rewrite Hw; cbn;
    rewrite Hclear; cbn; repeat split.
Qed.

Lemma export_with_lost_clear_witness :
  statusHTML (snd (handle PopupJs CopyToClipboard env_port_lost
                     (browser_with_cookie PopupJs))) = COPY_SUCCESS
  /\ errorHTML (snd (handle PopupJs CopyToClipboard env_port_lost
                       (browser_with_cookie PopupJs))) <> "".
Proof.
  assert (cookiesHeap (browser_with_cookie PopupJs) <> []) as Hne.
  { vm_compute. discriminate. }
  destruct (export_with_lost_clear PopupJs env_port_lost
              (browser_with_cookie PopupJs)
              "Could not establish connection. Receiving end does not exist."
              Hne eq_refl eq_refl eq_refl) as [_ [H2 [H3 _]]].
  split; [exact H2 |]. rewrite H3. vm_compute. discriminate.
Defined.

(** X23. An export changes the heap in one way only, by emptying it: the
    heap after is the heap before or the empty sequence, and no cookie
    animation is started. *)
Theorem export_keeps_or_clears (edition : Edition) (env : Env) (b : Browser) :
  (cookiesHeap (snd (handle edition CopyToClipboard env b)) = cookiesHeap b
   \/ cookiesHeap (snd (handle edition CopyToClipboard env b)) = [])
  /\ animated (snd (handle edition CopyToClipboard env b)) = animated b.
Proof.
  destruct edition; run_handler;
    (split; [first [left; reflexivity | right; reflexivity] | reflexivity]).
Qed.

(** X24. The popup only ever sends the two requests the holder answers:
    every action sends at most two requests, each of type
    [getCookiesHeap] or [setCookiesHeap], the first of them a read. *)
Theorem handlers_send_known_requests (edition : Edition) (action : Action)
  (env : Env) (b : Browser) :
  exists delta,
    sent (snd (handle edition action env b)) = sent b ++ delta
    /\ length delta <= 2
    /\ Forall (fun m => type m = "getCookiesHeap"
                        \/ type m = "setCookiesHeap") delta
    /\ (delta = [] \/ exists rest, delta = GET_REQUEST :: rest).
Proof.
  destruct edition, action; run_handler;
    first
      [ exists []; split; [now rewrite app_nil_r |];
        split; [simpl; lia |]; split; [constructor | now left]
      | eexists; split; [rewrite <- ?app_assoc; reflexivity |];
        split; [simpl; lia |];
        split; [repeat constructor; cbn; tauto
               | right; eexists; reflexivity] ].
Qed.

(** ** A host without a dot *)

(** X25. On a host name without a dot ([localhost]) a get-cookies asks
    the cookie store nothing and collects nothing, whatever the store
    holds: the heap stays as it was and the action ends as nothing new. *)
Theorem handleGetCookies_single_label (edition : Edition) (env : Env)
  (b : Browser) (url : URL) :
  deduped (cookiesHeap b) ->
  activeTab env = Ok url ->
  count_char "." (hostname url) = 0 ->
  schedule env [] = [] ->
  lastError env GET_REQUEST = None ->
  collected env = Ok []
  /\ fst (handle edition GetCookies env b) = Ok NothingNew
  /\ cookiesHeap (snd (handle edition GetCookies env b)) = cookiesHeap b.
Proof.
  intros Hd Htab Hdot Hs Hget. unfold GET_REQUEST in Hget.
  assert (getSubdomains url = []) as Hsub.
  { rewrite getSubdomains_loop, labels_length, Hdot. reflexivity. }
  assert (mergeAndDedupeCookies (cookiesHeap b) [] = cookiesHeap b) as Hm.
  { unfold mergeAndDedupeCookies, Js.map_values.
    rewrite app_nil_r, collect_deduped by assumption.
    rewrite map_map. apply map_id. }
  split; [unfold collected; now rewrite Htab, Hsub, Hs, gather_nil |].
  destruct edition; unfold_handlers; rewrite Htab; cbn;
    rewrite Hsub, Hs, gather_nil; cbn; rewrite Hget; cbn.
  - replace (Js.map_values (@nil (string * Cookie))) with (@nil Cookie)
      by reflexivity.
    rewrite Hm, Nat.ltb_irrefl. split; reflexivity.
  - replace (Js.map_values (@nil (string * Cookie))) with (@nil Cookie)
      by reflexivity.
    change (Js.map_values (collect (cookiesHeap b ++ []) []))
      with (mergeAndDedupeCookies (cookiesHeap b) []).
    rewrite Hm, Nat.eqb_refl. split; reflexivity.
Qed.

Lemma handleGetCookies_single_label_witness :
  cookieStore env_localhost "localhost" = Ok [cookie_x]
  /\ fst (handle ClassBased GetCookies env_localhost (opened env_localhost))
     = Ok NothingNew.
Proof.
  split; [reflexivity |].
  apply (handleGetCookies_single_label ClassBased env_localhost
           (opened env_localhost) localhost).
  - apply deduped_nil.
  - reflexivity.
  - reflexivity.
  - reflexivity.
  - reflexivity.
Defined.

(** ** The identity key *)

Lemma string_append_assoc (a b c : string) :
  ((a ++ b) ++ c)%string = (a ++ (b ++ c))%string.
Proof. induction a as [|x a IH]; simpl; [reflexivity | now rewrite IH]. Qed.

(** X26. The identity key does not tell the name from the domain when
    they contain underscores: the cookie named [a_b] on domain [c] and the
    cookie named [a] on domain [b_c] have the same key, so merging them
    keeps only the second. *)
Theorem cookieKey_underscore_collision (a b c : string) :
  cookieKey (named_cookie (a ++ "_" ++ b) c)
  = cookieKey (named_cookie a (b ++ "_" ++ c))
  /\ mergeAndDedupeCookies [named_cookie (a ++ "_" ++ b) c]
                           [named_cookie a (b ++ "_" ++ c)]
     = [named_cookie a (b ++ "_" ++ c)].
Proof.
  assert (cookieKey (named_cookie (a ++ "_" ++ b) c)
          = cookieKey (named_cookie a (b ++ "_" ++ c))) as H.
  { unfold cookieKey, named_cookie. cbn.
    now rewrite !string_append_assoc. }
  split; [exact H |].
  unfold mergeAndDedupeCookies, Js.map_values, collect.
  cbn [app fold_left Js.map_set]. rewrite H, String.eqb_refl. reflexivity.
Qed.

(** ** Converting the property names *)

Lemma to_lower_not_upper (c : ascii) : is_upper (to_lower c) = false.
Proof.
  destruct c as [[] [] [] [] [] [] [] []]; reflexivity.
Qed.

Lemma toLowerCase_not_upper (key : string) :
  forallb (fun c => negb (is_upper c)) (list_ascii_of_string (toLowerCase key))
  = true.
Proof.
  induction key as [|c key IH]; simpl; [reflexivity |].
  now rewrite to_lower_not_upper, IH.
Qed.

(** X27. A converted property name has no capital letter left. *)
Theorem snakeKey_has_no_capital (key : string) :
  forallb (fun c => negb (is_upper c)) (list_ascii_of_string (snakeKey key))
  = true.
Proof. unfold snakeKey. apply toLowerCase_not_upper. Qed.




(** X29. A leading capital is lowered without an underscore, so two names
    that differ only in the case of their first letter are converted to
    the same name. *)
Theorem snakeKey_leading_capital (c : ascii) (rest : string) :
  is_upper c = true ->
  snakeKey (String c rest) = snakeKey (String (to_lower c) rest)
  /\ snakeKey (String c rest)
     = String (to_lower c) (toLowerCase (underscore_upper rest)).
Proof.
  intros H. unfold snakeKey.
  assert (String.eqb (String (to_lower c) "") "_" = false) as Hu.
  { destruct c as [[] [] [] [] [] [] [] []]; try discriminate H; reflexivity. }
  simpl underscore_upper. rewrite H, to_lower_not_upper.
  assert (strip_underscore
            (String (to_lower c) (underscore_upper rest))
          = String (to_lower c) (underscore_upper rest)) as E.
  { unfold strip_underscore.
    destruct c as [[] [] [] [] [] [] [] []]; try discriminate H; reflexivity. }
  rewrite E. simpl.
  assert (to_lower (to_lower c) = to_lower c) as E2.
  { unfold to_lower at 1. now rewrite to_lower_not_upper. }
  rewrite E2. split; reflexivity.
Qed.

Lemma snakeKey_leading_capital_witness :
  snakeKey "Name" = snakeKey "name".
Proof.
  apply (snakeKey_leading_capital "N" "ame"). reflexivity.
Defined.




